(** * ytscm.monitor: the Super Chat monitor's fetch cycle and its repeating timer

    A shallow embedding of [src/ytscm/monitor.py].

    - The sqlite table [superchats (id TEXT)] is the list of its rows: the
      schema has no UNIQUE constraint, so the same identifier can be stored in
      several rows and the order of insertion is kept.
    - The YouTube client is a function from the page token of a request to
      what [request.execute()] does: it raises, or it returns a response.
    - A response is the dictionary the code reads: the list under ['items']
      and the entry under ['nextPageToken'], which may be absent.
    - What the handler and the client are asked to do is collected in a log of
      events, in the order of the calls.
    - [while True] is a recursion on a number of iterations still allowed. *)

From Stdlib Require Import List String Bool Arith Lia.
Import ListNotations.
Open Scope string_scope.
Open Scope list_scope.
Open Scope nat_scope.

(** ** Data *)

Definition Id := string.
Definition Token := string.
Definition Path := string.

(** One entry of [response['items']]: the code reads [super_chat_json['id']]
    and hands the rest to [YTSCEvent]. *)
Record Json := mkJson { json_id : Id; json_snippet : string }.

(** Modelled from the spec: [YTSCEvent] lives in [event.py], which is not among
    the sources.  The spec's Item is an opaque value with one identity field;
    the event built from an entry keeps the entry, and [get_id] answers the
    entry's identifier. *)
Record YTSCEvent := mkEvent { event_json : Json }.

Definition get_id (e : YTSCEvent) : Id := json_id (event_json e).

(** The dictionary returned by [request.execute()].  [nextPageToken = None] is
    the key being absent. *)
Record Response := mkResponse {
  nextPageToken : option Token;
  items : list Json
}.

(** [superChatEvents().list(pageToken=token).execute()]: [None] when the call
    raises. *)
Definition Client := option Token -> option Response.

(** The update function: [true] when the call returns, [false] when it
    raises. *)
Definition Handler := YTSCEvent -> bool.

Inductive exn :=
| AttributeError   (* an attribute that was never assigned, or one of None *)
| KeyError         (* response["nextPageToken"] on a response without it *)
| TypeError        (* calling None *)
| HttpError        (* request.execute() failed *)
| HandlerError     (* the update function raised *)
| OAuthError.      (* the credential flow or the client builder failed *)

Inductive event :=
| Request (token : option Token)
| Update (e : YTSCEvent) (returned : bool).

(** The monitor object.  [__youtube] and [__update] have class-level defaults
    ([None]); [__progress_db] has none, so until [__init__] assigns it the
    attribute does not exist, which is [None] here. *)
Record YTSCMonitor := mkMonitor {
  __youtube : option Client;
  __update : option Handler;
  __progress_db : option Path
}.

Definition class_defaults : YTSCMonitor :=
  {| __youtube := None; __update := None; __progress_db := None |}.

(** ** The seen-set *)

(** The count of the rows [WHERE id = ?], as the SELECT of [_is_fetched]
    computes it. *)
Definition select_count (id : Id) (con : list Id) : nat :=
  count_occ string_dec con id.

(** [_is_fetched]: [fetched == 1]. *)
Definition _is_fetched (id : Id) (con : list Id) : bool :=
  select_count id con =? 1.

(** [cur.execute("INSERT INTO superchats VALUES (?)", (x,))] for every [x] of
    the buffer. *)
Definition insert_all (buffer : list Id) (con : list Id) : list Id :=
  fold_left (fun rows x => rows ++ [x]) buffer con.

(** ** One page: the [for] loop of lines 122-129 *)

Record PageResult := mkPage {
  page_raised : option exn;
  page_finished : bool;      (* is_finished after the loop *)
  page_buffer : list Id;     (* buffer after the loop *)
  page_log : list event
}.

Fixpoint for_items (upd : option Handler) (con : list Id) (l : list Json)
         (is_finished : bool) (buffer : list Id) : PageResult :=
  match l with
  | [] => mkPage None is_finished buffer []
  | super_chat_json :: l' =>
      if _is_fetched (json_id super_chat_json) con then
        for_items upd con l' true buffer
      else
        let super_chat_event := mkEvent super_chat_json in
        let buffer := buffer ++ [get_id super_chat_event] in
        match upd with
        | None => mkPage (Some TypeError) is_finished buffer []
        | Some h =>
            if h super_chat_event then
              let r := for_items upd con l' is_finished buffer in
              mkPage (page_raised r) (page_finished r) (page_buffer r)
                     (Update super_chat_event true :: page_log r)
            else
              mkPage (Some HandlerError) is_finished buffer
                     [Update super_chat_event false]
        end
  end.

(** ** The page walk: [while True] of lines 105-138 *)

Inductive signal :=
| Break              (* the loop was left by one of its two [break]s *)
| Raise (e : exn)    (* an exception left the loop *)
| Running.           (* the iterations allowed were used up *)

Record Walk := mkWalk {
  walk_signal : signal;
  walk_con : list Id;        (* the rows the connection sees, inserts included *)
  walk_log : list event
}.

Definition logged (ev : list event) (w : Walk) : Walk :=
  mkWalk (walk_signal w) (walk_con w) (ev ++ walk_log w).

Fixpoint while_true (yt : Client) (upd : option Handler) (fuel : nat)
         (token : option Token) (con : list Id) : Walk :=
  match fuel with
  | 0 => mkWalk Running con []
  | S fuel' =>
      match yt token with
      | None => mkWalk (Raise HttpError) con [Request token]
      | Some response =>
          match nextPageToken response with
          | None => mkWalk (Raise KeyError) con [Request token]
          | Some token' =>
              if List.length (items response) =? 0 then
                mkWalk Break con [Request token]
              else
                let p := for_items upd con (items response) false [] in
                match page_raised p with
                | Some e => mkWalk (Raise e) con (Request token :: page_log p)
                | None =>
                    let con' := insert_all (page_buffer p) con in
                    if page_finished p then
                      mkWalk Break con' (Request token :: page_log p)
                    else
                      logged (Request token :: page_log p)
                             (while_true yt upd fuel' (Some token') con')
                end
          end
      end
  end.

(** ** fetch *)

Inductive outcome :=
| Returned
| Raised (e : exn)
| Unfinished.

Record Cycle := mkCycle {
  cycle_outcome : outcome;
  stored : list Id;          (* the table on disk after the call *)
  log : list event
}.

(** [fetch]: the connection is opened on [self.__progress_db]; the walk runs
    inside [with ... as con], which rolls the transaction back when an
    exception leaves it; [con.commit()] is reached only after a [break]. *)
Definition fetch (self : YTSCMonitor) (db : list Id) (fuel : nat) : Cycle :=
  match __progress_db self with
  | None => mkCycle (Raised AttributeError) db []
  | Some _ =>
      match __youtube self with
      | None => mkCycle (Raised AttributeError) db []
      | Some yt =>
          let w := while_true yt (__update self) fuel None db in
          match walk_signal w with
          | Break => mkCycle Returned (walk_con w) (walk_log w)
          | Raise e => mkCycle (Raised e) db (walk_log w)
          | Running => mkCycle Unfinished db (walk_log w)
          end
      end
  end.

(** ** __init__ *)

Inductive built :=
| Built (self : YTSCMonitor)
| Failed (e : exn)
| Hangs.                            (* the first fetch never leaves its loop *)

Record Constructed := mkConstructed {
  init_result : built;
  init_stored : option (list Id);   (* [None]: no table yet *)
  init_log : list event
}.

Definition table (db : option (list Id)) : list Id :=
  match db with Some rows => rows | None => [] end.

(** [credentials] is what the credential flow and [discovery.build] give:
    the client, or [None] when one of them raises. *)
Definition __init__ (credentials : option Client) (progress_db : Path)
           (update_function : option Handler) (init : bool)
           (db : option (list Id)) (fuel : nat) : Constructed :=
  match credentials with
  | None => mkConstructed (Failed OAuthError) db []
  | Some yt =>
      let self := mkMonitor (Some yt) (__update class_defaults)
                            (__progress_db class_defaults) in
      let first :=
        if init then fetch self (table db) fuel
        else mkCycle Returned (table db) [] in
      match cycle_outcome first with
      | Raised e => mkConstructed (Failed e) db (log first)
      | Unfinished => mkConstructed Hangs db (log first)
      | Returned =>
          let self := mkMonitor (__youtube self) update_function
                                (__progress_db self) in
          let self := mkMonitor (__youtube self) (__update self)
                                (Some progress_db) in
          (* CREATE TABLE IF NOT EXISTS superchats (id TEXT) *)
          mkConstructed (Built self) (Some (stored first)) (log first)
      end
  end.

(** ** The repeating timer: [__AutoFetchTimer] *)

(** Where one [threading.Timer] created by [_start_timer] stands. *)
Inductive pc :=
| Waiting      (* started, the interval has not elapsed *)
| Cancelled    (* [Timer.cancel()] came before the interval elapsed *)
| Line172      (* [_handle_target] entered, before [is_running = True] *)
| Line173      (* inside [self.target()], the fetch cycle *)
| Line174      (* the target returned, before [is_running = False] *)
| Line175      (* before [self._start_timer()] *)
| Done         (* [_handle_target] returned *)
| Crashed.     (* the target raised and the thread ended with it *)

(** [thread] is the position in [timers] of the [Timer] the attribute refers
    to; [timers] are all the [Timer]s this object has created. *)
Record AutoFetchTimer := mkTimer {
  _should_continue : bool;
  is_running : bool;
  seconds : nat;
  thread : option nat;
  timers : list pc
}.

Definition timer_init (seconds : nat) : AutoFetchTimer :=
  mkTimer false false seconds None [].

(** [l[i] = x]; used only at positions that [nth_error] has found. *)
Fixpoint assign {A} (l : list A) (i : nat) (x : A) : list A :=
  match l, i with
  | [], _ => []
  | _ :: l', 0 => x :: l'
  | y :: l', S i' => y :: assign l' i' x
  end.

Definition goto (t : AutoFetchTimer) (i : nat) (p : pc) : AutoFetchTimer :=
  mkTimer (_should_continue t) (is_running t) (seconds t) (thread t)
          (assign (timers t) i p).

Definition _start_timer (t : AutoFetchTimer) : AutoFetchTimer :=
  if _should_continue t then
    mkTimer (_should_continue t) (is_running t) (seconds t)
            (Some (List.length (timers t))) (timers t ++ [Waiting])
  else t.

Definition timer_start (t : AutoFetchTimer) : AutoFetchTimer :=
  if negb (_should_continue t) && negb (is_running t) then
    _start_timer (mkTimer true (is_running t) (seconds t) (thread t) (timers t))
  else t.

(** [Timer.cancel()] stops a timer that has not fired and does nothing to one
    that has. *)
Definition cancel_thread (l : list pc) (i : nat) : list pc :=
  match nth_error l i with
  | Some Waiting => assign l i Cancelled
  | _ => l
  end.

(** [cancel]: [None] when [self.thread] is [None], where [self.thread.cancel()]
    raises. *)
Definition timer_cancel (t : AutoFetchTimer) : option AutoFetchTimer :=
  match thread t with
  | None => None
  | Some i =>
      Some (mkTimer false (is_running t) (seconds t) (thread t)
                    (cancel_thread (timers t) i))
  end.

(** One step of the [Timer] at position [i]: the interval elapses, or the
    thread runs the next line of [_handle_target].  [raises] tells whether the
    target, when it is the target that ends, ends by an exception.  The call
    of [_start_timer] at line 175 is one step: the test of line 178 and the
    creation of lines 179-180 are not separated, so nothing is stated below
    about a [stop] that would fall between them. *)
Definition _handle_target_step (i : nat) (raises : bool) (t : AutoFetchTimer)
  : AutoFetchTimer :=
  match nth_error (timers t) i with
  | Some Waiting => goto t i Line172
  | Some Line172 =>
      goto (mkTimer (_should_continue t) true (seconds t) (thread t) (timers t))
           i Line173
  | Some Line173 => goto t i (if raises then Crashed else Line174)
  | Some Line174 =>
      goto (mkTimer (_should_continue t) false (seconds t) (thread t) (timers t))
           i Line175
  | Some Line175 => _start_timer (goto t i Done)
  | _ => t
  end.

(** ** The monitor's [start] and [stop] *)

(** [heap] are the timer objects ever created; [__autofetch_timer] is the
    position of the one the monitor's attribute refers to. *)
Record Scheduler := mkScheduler {
  __autofetch_timer : option nat;
  heap : list AutoFetchTimer
}.

Definition idle : Scheduler := mkScheduler None [].

Definition start (interval : nat) (s : Scheduler) : Scheduler :=
  mkScheduler (Some (List.length (heap s)))
              (heap s ++ [timer_start (timer_init interval)]).

Definition stop (s : Scheduler) : Scheduler :=
  match __autofetch_timer s with
  | None => s
  | Some o =>
      match nth_error (heap s) o with
      | None => s
      | Some t =>
          match timer_cancel t with
          | None => s
          | Some t' => mkScheduler (__autofetch_timer s) (assign (heap s) o t')
          end
      end
  end.

(** What can happen to the scheduler: a call of the monitor's [start] or
    [stop], or a step of [Timer] [i] of timer object [o].  The calls are taken
    as one step each; a [Timer] thread advances line by line, so that the
    calls and the threads interleave in every order.  Time is not measured:
    a waiting [Timer] may fire at any moment, whatever the interval. *)
Inductive action :=
| CallStart (interval : nat)
| CallStop
| Tick (o i : nat) (raises : bool).

Definition act (s : Scheduler) (a : action) : Scheduler :=
  match a with
  | CallStart interval => start interval s
  | CallStop => stop s
  | Tick o i raises =>
      match nth_error (heap s) o with
      | None => s
      | Some t =>
          mkScheduler (__autofetch_timer s)
                      (assign (heap s) o (_handle_target_step i raises t))
      end
  end.

Definition run (acts : list action) (s : Scheduler) : Scheduler :=
  fold_left act acts s.

Definition is_start (a : action) : bool :=
  match a with CallStart _ => true | _ => false end.

(** A [Timer] that will still do something: it waits or it executes
    [_handle_target]. *)
Definition alive (p : pc) : bool :=
  match p with
  | Waiting | Line172 | Line173 | Line174 | Line175 => true
  | _ => false
  end.

Definition in_target (p : pc) : bool :=
  match p with Line173 => true | _ => false end.

Definition count_pc (f : pc -> bool) (s : Scheduler) : nat :=
  list_sum (map (fun t => List.length (filter f (timers t))) (heap s)).

(** The fetch cycles in flight. *)
Definition in_flight (s : Scheduler) : nat := count_pc in_target s.

(** The [Timer]s that wait or execute. *)
Definition live (s : Scheduler) : nat := count_pc alive s.

(** The spec's running state: the monitor holds a timer whose
    [_should_continue] is set. *)
Definition running (s : Scheduler) : bool :=
  match __autofetch_timer s with
  | None => false
  | Some o =>
      match nth_error (heap s) o with
      | Some t => _should_continue t
      | None => false
      end
  end.

(** ** Several cycles in a row *)

(** Fetch cycles run one after the other on the same table, each with the
    monitor (client and handler) and the iterations it is given. *)
Fixpoint cycles (runs : list (YTSCMonitor * nat)) (db : list Id)
  : list Id * list event :=
  match runs with
  | [] => (db, [])
  | (self, fuel) :: rest =>
      let c := fetch self db fuel in
      let '(db', ev) := cycles rest (stored c) in
      (db', log c ++ ev)
  end.

(** ** Vocabulary of the statements *)

Definition unseen (con : list Id) (j : Json) : bool :=
  negb (_is_fetched (json_id j) con).

Definition seen (con : list Id) (j : Json) : bool :=
  _is_fetched (json_id j) con.

Definition delivery (j : Json) : event := Update (mkEvent j) true.

(** The deliveries of a log, whatever their result. *)
Fixpoint updates (ev : list event) : list YTSCEvent :=
  match ev with
  | [] => []
  | Update e _ :: ev' => e :: updates ev'
  | Request _ :: ev' => updates ev'
  end.

(** No page of the feed lists an identifier twice. *)
Definition pages_distinct (yt : Client) : Prop :=
  forall token response,
    yt token = Some response -> NoDup (map json_id (items response)).

(** Every identifier the feed can return belongs to [universe]. *)
Definition feed_within (yt : Client) (universe : list Id) : Prop :=
  forall token response j,
    yt token = Some response -> In j (items response) ->
    In (json_id j) universe.

Definition pending_pc (p : pc) : bool :=
  match p with Waiting => true | _ => false end.

(** The [Timer]s that wait for their interval to elapse. *)
Definition pending (s : Scheduler) : nat := count_pc pending_pc s.

Definition b2n (b : bool) : nat := if b then 1 else 0.

(** The [Timer]s of one timer object that wait or execute. *)
Definition alive_timers (t : AutoFetchTimer) : nat :=
  List.length (filter alive (timers t)).

(** ** Concrete feeds and handlers *)

Definition item_a : Json := mkJson "a" "".
Definition item_b : Json := mkJson "b" "".
Definition item_c : Json := mkJson "c" "".
Definition item_d : Json := mkJson "d" "".

Definition monitor (yt : Client) (h : Handler) : YTSCMonitor :=
  mkMonitor (Some yt) (Some h) (Some "progress.db").

Definition always_returns : Handler := fun _ => true.

(** Raises for the item [a], returns for the others. *)
Definition raises_on_a : Handler :=
  fun e => negb (String.eqb (get_id e) "a").

(** First page [a; b] with a token, then an empty page. *)
Definition feed_two_items : Client :=
  fun token =>
    match token with
    | None => Some (mkResponse (Some "p2") [item_a; item_b])
    | Some _ => Some (mkResponse (Some "p3") [])
    end.

(** The page [a; b; c; d] of the spec, with a token. *)
Definition feed_mixed : Client :=
  fun token =>
    match token with
    | None => Some (mkResponse (Some "p2") [item_a; item_b; item_c; item_d])
    | Some _ => Some (mkResponse (Some "p3") [])
    end.

(** A feed of one page that is also the last: the response has no
    [nextPageToken]. *)
Definition feed_last_page : Client :=
  fun token =>
    match token with
    | None => Some (mkResponse None [item_a])
    | Some _ => None
    end.

(** First page [a] with a token; the request of the second page fails. *)
Definition feed_breaks_on_second_page : Client :=
  fun token =>
    match token with
    | None => Some (mkResponse (Some "p2") [item_a])
    | Some _ => None
    end.

(** A page that lists the item [a] twice, then an empty page. *)
Definition feed_repeated_item : Client :=
  fun token =>
    match token with
    | None => Some (mkResponse (Some "p2") [item_a; item_a])
    | Some _ => Some (mkResponse (Some "p3") [])
    end.

(** ** Vocabulary of the further statements *)

(** The [Timer]s of one timer object that wait for their interval. *)
Definition pending_timers (t : AutoFetchTimer) : nat :=
  List.length (filter pending_pc (timers t)).

(** A cycle of a sequence whose feed lists no identifier twice in a page. *)
Definition distinct_run (r : YTSCMonitor * nat) : Prop :=
  forall yt, __youtube (fst r) = Some yt -> pages_distinct yt.

(** A timer object whose [Timer]s form one chain: at most one of them waits
    or executes, and one that waits is the one [thread] refers to. *)
Definition chained (t : AutoFetchTimer) : Prop :=
  thread t <> None /\
  alive_timers t <= 1 /\
  (pending_timers t = 1 ->
   exists i, thread t = Some i /\ nth_error (timers t) i = Some Waiting).

(** A timer object that was cancelled and has no [Timer] waiting. *)
Definition quiet (t : AutoFetchTimer) : Prop :=
  _should_continue t = false /\ pending_timers t = 0.

(** The monitor has created one timer object, holds it, and it satisfies
    [P]. *)
Definition sole (P : AutoFetchTimer -> Prop) (s : Scheduler) : Prop :=
  exists t, heap s = [t] /\ __autofetch_timer s = Some 0 /\ P t.

(** Every timer object has a [Timer] in [thread], and the monitor's
    attribute, when set, refers to one of the objects. *)
Definition cancellable (s : Scheduler) : Prop :=
  (forall o, __autofetch_timer s = Some o -> o < List.length (heap s)) /\
  Forall (fun t => thread t <> None) (heap s).

(** The tokens of the page requests of a log, in the order of the
    requests. *)
Fixpoint requests (ev : list event) : list (option Token) :=
  match ev with
  | [] => []
  | Request t :: ev' => t :: requests ev'
  | Update _ _ :: ev' => requests ev'
  end.

(** Each token of [l] is the [nextPageToken] of the response to the request
    just before it, the first one of the response to the request of
    [previous]. *)
Fixpoint follows (yt : Client) (previous : option Token)
         (l : list (option Token)) : Prop :=
  match l with
  | [] => True
  | t :: l' =>
      (exists response token',
          yt previous = Some response /\
          nextPageToken response = Some token' /\
          t = Some token') /\
      follows yt t l'
  end.

(** * Properties *)

(** ** The seen-set *)

Lemma insert_all_app (buffer con : list Id) :
  insert_all buffer con = con ++ buffer.
Proof.
  unfold insert_all. revert con.
  induction buffer as [|x buffer IH]; intros con; simpl.
  - now rewrite app_nil_r.
  - rewrite IH, <- app_assoc. reflexivity.
Qed.

Lemma is_fetched_count (i : Id) (con : list Id) :
  _is_fetched i con = true <-> count_occ string_dec con i = 1.
Proof. unfold _is_fetched, select_count. apply Nat.eqb_eq. Qed.

Lemma is_fetched_in (i : Id) (con : list Id) :
  _is_fetched i con = true -> In i con.
Proof.
  intros H. apply is_fetched_count in H.
  apply (count_occ_In string_dec). lia.
Qed.

Lemma is_fetched_nodup (i : Id) (con : list Id) :
  NoDup con -> In i con -> _is_fetched i con = true.
Proof.
  intros Hnd Hin. apply is_fetched_count.
  rewrite (NoDup_count_occ string_dec) in Hnd. specialize (Hnd i).
  apply (count_occ_In string_dec) in Hin. lia.
Qed.

(** ** One page *)

Section Page.

Variable upd : option Handler.
Variable con : list Id.

(** A page whose loop ends without an exception: what it leaves. *)
Lemma for_items_ok (l : list Json) : forall is_finished buffer,
  page_raised (for_items upd con l is_finished buffer) = None ->
  for_items upd con l is_finished buffer =
    mkPage None (is_finished || existsb (seen con) l)
           (buffer ++ map json_id (filter (unseen con) l))
           (map delivery (filter (unseen con) l)).
Proof.
  induction l as [|j l IH]; intros fin buf H; cbn [for_items filter existsb] in *.
  - simpl. now rewrite orb_false_r, app_nil_r.
  - replace (unseen con j) with (negb (_is_fetched (json_id j) con))
      by reflexivity.
    replace (seen con j) with (_is_fetched (json_id j) con) by reflexivity.
    destruct (_is_fetched (json_id j) con) eqn:Hf; cbn [negb].
    + rewrite (IH _ _ H). simpl. now rewrite orb_true_r.
    + destruct upd as [h|]; [|discriminate].
      destruct (h (mkEvent j)) eqn:Hh; [|discriminate].
      simpl in H. rewrite (IH _ _ H). simpl.
      rewrite <- app_assoc. reflexivity.
Qed.

Lemma page_log_no_request (l : list Json) : forall is_finished buffer token,
  ~ In (Request token) (page_log (for_items upd con l is_finished buffer)).
Proof.
  induction l as [|j l IH]; intros fin buf token; simpl.
  - tauto.
  - destruct (_is_fetched (json_id j) con); [apply IH|].
    destruct upd as [h|]; simpl; [|tauto].
    destruct (h (mkEvent j)); simpl.
    + intros [H|H]; [discriminate|]. revert H. apply IH.
    + intros [H|[]]; discriminate.
Qed.

(** An update that raised is the last thing the page did. *)
Lemma page_failed_last (l : list Json) : forall is_finished buffer e,
  In (Update e false) (page_log (for_items upd con l is_finished buffer)) ->
  page_raised (for_items upd con l is_finished buffer) = Some HandlerError /\
  exists pre,
    page_log (for_items upd con l is_finished buffer) = pre ++ [Update e false].
Proof.
  induction l as [|j l IH]; intros fin buf e; simpl.
  - tauto.
  - destruct (_is_fetched (json_id j) con); [apply IH|].
    destruct upd as [h|]; simpl; [|tauto].
    destruct (h (mkEvent j)); simpl.
    + intros [H|H]; [discriminate|].
      destruct (IH _ _ _ H) as [Hr [pre Hp]]. split; [exact Hr|].
      exists (Update (mkEvent j) true :: pre). now rewrite Hp.
    + intros [H|[]]. split; [reflexivity|]. exists []. now rewrite H.
Qed.

Lemma page_ok_all_returned (l : list Json) is_finished buffer e :
  page_raised (for_items upd con l is_finished buffer) = None ->
  ~ In (Update e false) (page_log (for_items upd con l is_finished buffer)).
Proof.
  intros H Hin. apply page_failed_last in Hin. destruct Hin as [Hr _].
  congruence.
Qed.

End Page.

(** A handler that returns for every unseen item lets the page finish. *)
Lemma for_items_returns (h : Handler) (con : list Id) (l : list Json) :
  forall is_finished buffer,
    (forall j, In j l -> unseen con j = true -> h (mkEvent j) = true) ->
    page_raised (for_items (Some h) con l is_finished buffer) = None.
Proof.
  induction l as [|j l IH]; intros fin buf Hh; simpl.
  - reflexivity.
  - destruct (_is_fetched (json_id j) con) eqn:Hf.
    + apply IH. intros; apply Hh; simpl; auto.
    + rewrite (Hh j); [|now left|unfold unseen; now rewrite Hf].
      simpl. apply IH. intros; apply Hh; simpl; auto.
Qed.

(** ** The page walk *)

(** The cases of one iteration of [while True], in the order of the code. *)
Ltac walk_cases yt token upd con :=
  cbn [while_true];
  let response := fresh "response" in
  let token' := fresh "token'" in
  let Hyt := fresh "Hyt" in
  let Htok := fresh "Htok" in
  let Hlen := fresh "Hlen" in
  let Hpage := fresh "Hpage" in
  let Hfin := fresh "Hfin" in
  destruct (yt token) as [response|] eqn:Hyt;
  [ destruct (nextPageToken response) as [token'|] eqn:Htok;
    [ destruct (List.length (items response) =? 0) eqn:Hlen;
      [ | destruct (page_raised (for_items upd con (items response) false []))
            eqn:Hpage;
          [ | destruct (page_finished (for_items upd con (items response) false []))
                eqn:Hfin ] ]
    | ]
  | ]; cbn [walk_signal walk_con walk_log logged].

Section Walk.

Variable yt : Client.
Variable upd : option Handler.

(** A request that fails ends the walk, and is the last thing it did. *)
Lemma walk_request_failed (fuel : nat) : forall token con t,
  In (Request t) (walk_log (while_true yt upd fuel token con)) ->
  yt t = None ->
  walk_signal (while_true yt upd fuel token con) = Raise HttpError /\
  exists pre,
    walk_log (while_true yt upd fuel token con) = pre ++ [Request t].
Proof.
  induction fuel as [|fuel IH]; intros token con t.
  - simpl. tauto.
  - walk_cases yt token upd con; intros Hin Ht.
    + destruct Hin as [H|[]]. inversion H; subst. congruence.
    + destruct Hin as [H|H]; [inversion H; subst; congruence|].
      now apply page_log_no_request in H.
    + destruct Hin as [H|H]; [inversion H; subst; congruence|].
      now apply page_log_no_request in H.
    + destruct Hin as [H|H]; [inversion H; subst; congruence|].
      apply in_app_or in H. destruct H as [H|H].
      * now apply page_log_no_request in H.
      * destruct (IH _ _ _ H Ht) as [Hs [pre Hp]]. split; [exact Hs|].
        exists (Request token
                  :: page_log (for_items upd con (items response) false [])
                  ++ pre).
        rewrite Hp. simpl. now rewrite app_assoc.
    + destruct Hin as [H|[]]. inversion H; subst. congruence.
    + destruct Hin as [H|[]]. inversion H; subst.
      split; [reflexivity|]. now exists [].
Qed.

(** An update that raised ends the walk, and is the last thing it did. *)
Lemma walk_update_failed (fuel : nat) : forall token con e,
  In (Update e false) (walk_log (while_true yt upd fuel token con)) ->
  walk_signal (while_true yt upd fuel token con) = Raise HandlerError /\
  exists pre,
    walk_log (while_true yt upd fuel token con) = pre ++ [Update e false].
Proof.
  induction fuel as [|fuel IH]; intros token con e.
  - simpl. tauto.
  - walk_cases yt token upd con; intros Hin.
    + destruct Hin as [H|[]]. discriminate.
    + destruct Hin as [H|H]; [discriminate|].
      apply page_failed_last in H. destruct H as [Hr [pre Hp]].
      rewrite Hr in Hpage. inversion Hpage; subst.
      split; [reflexivity|]. exists (Request token :: pre). now rewrite Hp.
    + destruct Hin as [H|H]; [discriminate|].
      now apply page_ok_all_returned in H.
    + destruct Hin as [H|H]; [discriminate|].
      apply in_app_or in H. destruct H as [H|H].
      * now apply page_ok_all_returned in H.
      * destruct (IH _ _ _ H) as [Hs [pre Hp]]. split; [exact Hs|].
        exists (Request token
                  :: page_log (for_items upd con (items response) false [])
                  ++ pre).
        rewrite Hp. simpl. now rewrite app_assoc.
    + destruct Hin as [H|[]]. discriminate.
    + destruct Hin as [H|[]]. discriminate.
Qed.

(** The rows a finished walk added come from updates that returned. *)
Lemma walk_recorded (fuel : nat) : forall token con i,
  walk_signal (while_true yt upd fuel token con) = Break ->
  In i (walk_con (while_true yt upd fuel token con)) ->
  In i con \/
  exists e, In (Update e true) (walk_log (while_true yt upd fuel token con))
            /\ get_id e = i.
Proof.
  induction fuel as [|fuel IH]; intros token con i.
  - simpl. discriminate.
  - walk_cases yt token upd con; intros Hs Hin; try discriminate.
    + now left.
    + pose proof (for_items_ok _ _ _ _ _ Hpage) as Hok. rewrite Hok in *.
      cbn [page_buffer page_log] in *. rewrite insert_all_app in Hin.
      apply in_app_or in Hin. destruct Hin as [Hin|Hin]; [now left|right].
      simpl in Hin. apply in_map_iff in Hin. destruct Hin as [j [Hj Hjin]].
      exists (mkEvent j). split; [|exact Hj]. right.
      apply in_map_iff. now exists j.
    + pose proof (for_items_ok _ _ _ _ _ Hpage) as Hok. rewrite Hok in *.
      cbn [page_buffer page_log] in *. rewrite insert_all_app in *.
      destruct (IH _ _ _ Hs Hin) as [H|[e [H1 H2]]].
      * apply in_app_or in H. destruct H as [H|H]; [now left|right].
        simpl in H. apply in_map_iff in H. destruct H as [j [Hj Hjin]].
        exists (mkEvent j). split; [|exact Hj]. right.
        apply in_or_app. left. apply in_map_iff. now exists j.
      * right. exists e. split; [|exact H2]. right.
        apply in_or_app. now right.
Qed.

End Walk.

(** ** The next cycle after a handler failure *)

Section Retry.

Variables h h2 : Handler.
Variable con : list Id.

Lemma for_items_agree (l : list Json) is_finished buffer :
  page_raised (for_items (Some h) con l is_finished buffer) = None ->
  (forall x, In (Update x true)
                (page_log (for_items (Some h) con l is_finished buffer)) ->
             h2 x = true) ->
  for_items (Some h2) con l is_finished buffer =
  for_items (Some h) con l is_finished buffer.
Proof.
  intros Hok Hagree.
  rewrite (for_items_ok _ _ _ _ _ Hok) in *. cbn [page_log] in Hagree.
  apply for_items_ok. apply for_items_returns. intros j Hj Hu.
  apply Hagree. change (Update (mkEvent j) true) with (delivery j).
  apply in_map. apply filter_In. auto.
Qed.

Lemma for_items_redeliver (l : list Json) : forall is_finished buffer e,
  In (Update e false)
     (page_log (for_items (Some h) con l is_finished buffer)) ->
  (forall x, In (Update x true)
                (page_log (for_items (Some h) con l is_finished buffer)) ->
             h2 x = true) ->
  exists b, In (Update e b)
               (page_log (for_items (Some h2) con l is_finished buffer)).
Proof.
  induction l as [|j l IH]; intros fin buf e; cbn [for_items].
  - simpl. tauto.
  - destruct (_is_fetched (json_id j) con); [apply IH|].
    destruct (h (mkEvent j)) eqn:Hh; cbn [page_log].
    + intros [H|H] Hagree; [discriminate|].
      rewrite (Hagree (mkEvent j)) by now left. cbn [page_log].
      destruct (IH _ _ _ H) as [b Hb].
      * intros x Hx. apply Hagree. now right.
      * exists b. now right.
    + intros [H|[]] _. inversion H; subst.
      destruct (h2 (mkEvent j)); cbn [page_log].
      * exists true. now left.
      * exists false. now left.
Qed.

End Retry.

Lemma walk_log_page (yt : Client) (upd : option Handler) (fuel : nat)
      (token : option Token) (con : list Id) (response : Response)
      (token' : Token) (ev : event) :
  yt token = Some response ->
  nextPageToken response = Some token' ->
  items response <> [] ->
  In ev (page_log (for_items upd con (items response) false [])) ->
  In ev (walk_log (while_true yt upd (S fuel) token con)).
Proof.
  intros Hyt Htok Hne Hin. cbn [while_true]. rewrite Hyt, Htok.
  destruct (items response) as [|j l] eqn:Hit; [congruence|].
  cbn [List.length Nat.eqb].
  destruct (page_raised (for_items upd con (j :: l) false [])).
  - now right.
  - destruct (page_finished (for_items upd con (j :: l) false [])).
    + now right.
    + right. apply in_or_app. now left.
Qed.

Lemma walk_redeliver (yt : Client) (h h2 : Handler) (fuel : nat) :
  forall fuel2 token con e,
    fuel <= fuel2 ->
    In (Update e false) (walk_log (while_true yt (Some h) fuel token con)) ->
    (forall x, In (Update x true)
                  (walk_log (while_true yt (Some h) fuel token con)) ->
               h2 x = true) ->
    exists b, In (Update e b)
                 (walk_log (while_true yt (Some h2) fuel2 token con)).
Proof.
  induction fuel as [|fuel IH]; intros fuel2 token con e Hle.
  - simpl. tauto.
  - destruct fuel2 as [|fuel2]; [lia|].
    set (w2 := while_true yt (Some h2) (S fuel2) token con).
    walk_cases yt token (Some h) con; intros Hin Hagree; subst w2.
    + destruct Hin as [H|[]]. discriminate.
    + destruct Hin as [H|H]; [discriminate|].
      destruct (for_items_redeliver h h2 con _ _ _ _ H) as [b Hb].
      * intros x Hx. apply Hagree. now right.
      * exists b. eapply walk_log_page; eauto.
        intros Hnil. rewrite Hnil in Hlen. discriminate.
    + destruct Hin as [H|H]; [discriminate|].
      now apply page_ok_all_returned in H.
    + destruct Hin as [H|H]; [discriminate|].
      apply in_app_or in H. destruct H as [H|H];
        [now apply page_ok_all_returned in H|].
      assert (Hsame : for_items (Some h2) con (items response) false [] =
                      for_items (Some h) con (items response) false []).
      { apply for_items_agree; [exact Hpage|].
        intros x Hx. apply Hagree. right. apply in_or_app. now left. }
      destruct (IH fuel2 _ _ _ ltac:(lia) H) as [b Hb].
      * intros x Hx. apply Hagree. right. apply in_or_app. now right.
      * exists b. cbn [while_true]. rewrite Hyt, Htok, Hlen, Hsame, Hpage, Hfin.
        cbn [logged walk_log]. right. apply in_or_app. now right.
    + destruct Hin as [H|[]]. discriminate.
    + destruct Hin as [H|[]]. discriminate.
Qed.

(** ** fetch *)

Lemma fetch_walk (yt : Client) (upd : option Handler) (path : Path)
      (db : list Id) (fuel : nat) :
  log (fetch (mkMonitor (Some yt) upd (Some path)) db fuel) =
  walk_log (while_true yt upd fuel None db).
Proof.
  unfold fetch. cbn [__progress_db __youtube __update].
  destruct (walk_signal (while_true yt upd fuel None db)); reflexivity.
Qed.

(** An exception leaves the table as it was: the transaction is rolled
    back. *)
Lemma fetch_rollback (self : YTSCMonitor) (db : list Id) (fuel : nat) (e : exn) :
  cycle_outcome (fetch self db fuel) = Raised e ->
  stored (fetch self db fuel) = db.
Proof.
  unfold fetch. destruct (__progress_db self); [|reflexivity].
  destruct (__youtube self); [|reflexivity].
  destruct (walk_signal _); simpl; intros H; try discriminate; reflexivity.
Qed.

Lemma fetch_recorded (self : YTSCMonitor) (db : list Id) (fuel : nat) (i : Id) :
  In i (stored (fetch self db fuel)) ->
  In i db \/
  exists e, In (Update e true) (log (fetch self db fuel)) /\ get_id e = i.
Proof.
  unfold fetch. destruct (__progress_db self); [|now left].
  destruct (__youtube self) as [yt|]; [|now left].
  destruct (walk_signal _) eqn:Hs; cbn [stored log]; try (now left).
  now apply walk_recorded.
Qed.

Lemma cycles_recorded (runs : list (YTSCMonitor * nat)) : forall db i,
  In i (fst (cycles runs db)) ->
  In i db \/
  exists e, In (Update e true) (snd (cycles runs db)) /\ get_id e = i.
Proof.
  induction runs as [|[self fuel] runs IH]; intros db i; cbn [cycles].
  - now left.
  - destruct (cycles runs (stored (fetch self db fuel))) as [db' ev] eqn:Hc.
    cbn [fst snd]. intros Hin.
    specialize (IH (stored (fetch self db fuel)) i). rewrite Hc in IH.
    destruct (IH Hin) as [H|[e [H1 H2]]].
    + destruct (fetch_recorded _ _ _ _ H) as [H0|[e [H1 H2]]]; [now left|].
      right. exists e. split; [|exact H2]. apply in_or_app. now left.
    + right. exists e. split; [|exact H2]. apply in_or_app. now right.
Qed.

(** ** Handler failure *)

(** C1, as the spec states it, fails: on the page [a; b] with a handler that
    raises for [a], the cycle calls the handler for [a] and never for [b]. *)
Lemma handler_failure_blocks_later_items :
  let c := fetch (monitor feed_two_items raises_on_a) [] 3 in
  In (Update (mkEvent item_a) false) (log c) /\
  forall b, ~ In (Update (mkEvent item_b) b) (log c).
Proof.
  vm_compute. split; [auto|].
  intros b [H|[H|[]]]; discriminate.
Qed.

(** C1 (amended): when the update function raises for an item, [fetch] lets
    the exception through: that call is the last thing the cycle does, so no
    later item is delivered; the transaction is rolled back, so the table is
    the one before the cycle and the failed item's identifier is not
    persisted; and the next [fetch] over the same feed, with a handler that
    returns for the items delivered before the failure, delivers the failed
    item again. *)
Theorem handler_failure_aborts_cycle
        (yt : Client) (h : Handler) (path : Path) (db : list Id) (fuel : nat)
        (e : YTSCEvent) :
  In (Update e false)
     (log (fetch (mkMonitor (Some yt) (Some h) (Some path)) db fuel)) ->
  let c := fetch (mkMonitor (Some yt) (Some h) (Some path)) db fuel in
  cycle_outcome c = Raised HandlerError /\
  (exists pre, log c = pre ++ [Update e false]) /\
  stored c = db /\
  forall (h2 : Handler) (fuel2 : nat),
    fuel <= fuel2 ->
    (forall x, In (Update x true) (log c) -> h2 x = true) ->
    exists b,
      In (Update e b)
         (log (fetch (mkMonitor (Some yt) (Some h2) (Some path)) (stored c) fuel2)).
Proof.
  intros Hin c.
  assert (Hout : cycle_outcome c = Raised HandlerError).
  { subst c. rewrite fetch_walk in Hin.
    destruct (walk_update_failed _ _ _ _ _ _ Hin) as [Hs _].
    unfold fetch. cbn [__progress_db __youtube __update]. now rewrite Hs. }
  assert (Hdb : stored c = db) by (eapply fetch_rollback; exact Hout).
  split; [exact Hout|]. split; [|split; [exact Hdb|]].
  - subst c. rewrite fetch_walk in *.
    now destruct (walk_update_failed _ _ _ _ _ _ Hin) as [_ Hp].
  - intros h2 fuel2 Hle Hagree. rewrite Hdb. subst c.
    rewrite fetch_walk in *. eapply walk_redeliver; eauto.
Qed.

Lemma handler_failure_aborts_cycle_witness :
  In (Update (mkEvent item_a) false)
     (log (fetch (monitor feed_two_items raises_on_a) [] 3)) /\
  cycle_outcome (fetch (monitor feed_two_items raises_on_a) [] 3)
  = Raised HandlerError.
Proof.
  assert (H : In (Update (mkEvent item_a) false)
                 (log (fetch (monitor feed_two_items raises_on_a) [] 3))).
  { vm_compute. auto. }
  split; [exact H|].
  exact (proj1 (handler_failure_aborts_cycle
                  feed_two_items raises_on_a "progress.db" [] 3 _ H)).
Defined.

(** ** Transport failure *)

(** C6, as the spec states it, fails: the item [a] of the first page is
    delivered and inserted, the request of the second page fails, and [a] is
    not in the table afterwards. *)
Lemma earlier_pages_not_recorded :
  let c := fetch (monitor feed_breaks_on_second_page always_returns) [] 3 in
  log c = [Request None; Update (mkEvent item_a) true; Request (Some "p2")] /\
  cycle_outcome c = Raised HttpError /\
  ~ In "a" (stored c).
Proof. vm_compute. repeat split. tauto. Qed.

(** C6 (amended): when the client fails on a page request of a cycle, [fetch]
    raises that error, the failed request is the last thing the cycle does,
    and nothing of the cycle is recorded: the table is the one before the
    cycle, the rows inserted for earlier pages included. *)
Theorem transport_error_rolls_back
        (yt : Client) (upd : option Handler) (path : Path) (db : list Id)
        (fuel : nat) (t : option Token) :
  In (Request t) (log (fetch (mkMonitor (Some yt) upd (Some path)) db fuel)) ->
  yt t = None ->
  let c := fetch (mkMonitor (Some yt) upd (Some path)) db fuel in
  cycle_outcome c = Raised HttpError /\
  (exists pre, log c = pre ++ [Request t]) /\
  stored c = db.
Proof.
  intros Hin Ht c.
  assert (Hout : cycle_outcome c = Raised HttpError).
  { subst c. rewrite fetch_walk in Hin.
    destruct (walk_request_failed _ _ _ _ _ _ Hin Ht) as [Hs _].
    unfold fetch. cbn [__progress_db __youtube __update]. now rewrite Hs. }
  split; [exact Hout|]. split; [|eapply fetch_rollback; exact Hout].
  subst c. rewrite fetch_walk in *.
  now destruct (walk_request_failed _ _ _ _ _ _ Hin Ht) as [_ Hp].
Qed.

Lemma transport_error_rolls_back_witness :
  stored (fetch (monitor feed_breaks_on_second_page always_returns) [] 3) = [].
Proof.
  refine (proj2 (proj2 (transport_error_rolls_back
                          feed_breaks_on_second_page (Some always_returns)
                          "progress.db" [] 3 (Some "p2") _ _))).
  - vm_compute. auto.
  - reflexivity.
Defined.

(** ** What the table holds *)

(** C8: over any sequence of cycles on a table that starts empty, every
    identifier in the table belongs to an item for which a call of the update
    function returned. *)
Theorem recorded_only_after_update_returned
        (runs : list (YTSCMonitor * nat)) (i : Id) :
  In i (fst (cycles runs [])) ->
  exists e, In (Update e true) (snd (cycles runs [])) /\ get_id e = i.
Proof.
  intros Hin. destruct (cycles_recorded _ _ _ Hin) as [[]|H]. exact H.
Qed.

Lemma recorded_only_after_update_returned_witness :
  exists e,
    In (Update e true)
       (snd (cycles [(monitor feed_two_items always_returns, 3)] [])) /\
    get_id e = "a".
Proof.
  apply (recorded_only_after_update_returned
           [(monitor feed_two_items always_returns, 3)] "a").
  vm_compute. auto.
Defined.

(** C4: the membership test is [count == 1].  It answers true after the first
    insert of an identifier into an empty table, and false after a second
    insert of the same identifier, whatever the table held; a page that lists
    an item twice makes [fetch] insert its identifier twice. *)
Theorem duplicate_insert_hides_identifier (i : Id) (con : list Id) :
  _is_fetched i (insert_all [i] []) = true /\
  _is_fetched i (insert_all [i] (insert_all [i] con)) = false /\
  stored (fetch (monitor feed_repeated_item always_returns) [] 3) = ["a"; "a"] /\
  _is_fetched "a"
    (stored (fetch (monitor feed_repeated_item always_returns) [] 3)) = false.
Proof.
  split; [|split; [|split; reflexivity]].
  - unfold _is_fetched, select_count, insert_all. simpl.
    destruct (string_dec i i); [reflexivity|congruence].
  - rewrite !insert_all_app. unfold _is_fetched, select_count.
    rewrite !count_occ_app. simpl.
    destruct (string_dec i i); [|congruence].
    apply Nat.eqb_neq. lia.
Qed.

(** ** The constructor *)

(** C10: with [init=True] the constructor calls [fetch] while
    [__progress_db] is unassigned and [__update] is [None]; that [fetch]
    raises before any request or update, and the constructor raises with it
    (or it has raised before, in the credential flow): it never returns a
    monitor, and the table is not created. *)
Theorem init_true_raises
        (credentials : option Client) (progress_db : Path)
        (update_function : option Handler) (db : option (list Id))
        (fuel : nat) :
  __init__ credentials progress_db update_function true db fuel =
    mkConstructed
      (Failed (match credentials with
               | Some _ => AttributeError
               | None => OAuthError
               end))
      db [] /\
  forall yt rows,
    fetch (mkMonitor (Some yt) None None) rows fuel =
    mkCycle (Raised AttributeError) rows [].
Proof.
  split.
  - destruct credentials; reflexivity.
  - reflexivity.
Qed.

(** ** Where the walk stops *)

(** One iteration of the walk on a page whose response carries a token and
    for whose unseen items the handler returns. *)
Lemma walk_step (yt : Client) (h : Handler) (fuel : nat)
      (token : option Token) (con : list Id)
      (response : Response) (token' : Token) :
  yt token = Some response ->
  nextPageToken response = Some token' ->
  (forall j, In j (items response) -> unseen con j = true ->
             h (mkEvent j) = true) ->
  let new := filter (unseen con) (items response) in
  while_true yt (Some h) (S fuel) token con =
    if (List.length (items response) =? 0) || existsb (seen con) (items response)
    then mkWalk Break (con ++ map json_id new)
                (Request token :: map delivery new)
    else logged (Request token :: map delivery new)
                (while_true yt (Some h) fuel (Some token')
                            (con ++ map json_id new)).
Proof.
  intros Hyt Htok Hh new. subst new. cbn [while_true]. rewrite Hyt, Htok.
  destruct (items response) as [|j l] eqn:Hit.
  - simpl. now rewrite app_nil_r.
  - cbn [List.length Nat.eqb orb].
    pose proof (for_items_returns h con (j :: l) false [] Hh) as Hok.
    rewrite (for_items_ok _ _ _ _ _ Hok).
    cbn [page_raised page_finished page_buffer page_log orb app].
    rewrite insert_all_app. reflexivity.
Qed.

(** C3, as the spec states it, fails: on the page [a; b; c; d] with [c] seen
    and a handler that raises for [a], neither [b] nor [d] is delivered. *)
Lemma mixed_page_not_completed :
  let c := fetch (monitor feed_mixed raises_on_a) ["c"] 3 in
  seen ["c"] item_c = true /\
  unseen ["c"] item_b = true /\ unseen ["c"] item_d = true /\
  log c = [Request None; Update (mkEvent item_a) false].
Proof. vm_compute. repeat split. Qed.

(** C3 (amended): on a page whose response carries a continuation token and
    that holds at least one seen identifier, when the update function returns
    for the unseen items of the page, the walk delivers every unseen item of
    the page, in the order of the page, inserts their identifiers, and ends
    after that page: the only request is the one of this page.  When the page
    is the first of the cycle, this is all [fetch] does, and it commits. *)
Theorem mixed_page_delivers_unseen_and_stops
        (yt : Client) (h : Handler) (fuel : nat) (token : option Token)
        (con : list Id) (response : Response) (token' : Token) :
  yt token = Some response ->
  nextPageToken response = Some token' ->
  existsb (seen con) (items response) = true ->
  (forall j, In j (items response) -> unseen con j = true ->
             h (mkEvent j) = true) ->
  let new := filter (unseen con) (items response) in
  while_true yt (Some h) (S fuel) token con =
    mkWalk Break (con ++ map json_id new)
           (Request token :: map delivery new) /\
  (token = None ->
   forall path,
     fetch (mkMonitor (Some yt) (Some h) (Some path)) con (S fuel) =
     mkCycle Returned (con ++ map json_id new)
             (Request None :: map delivery new)).
Proof.
  intros Hyt Htok Hseen Hh new.
  assert (Hw : while_true yt (Some h) (S fuel) token con =
               mkWalk Break (con ++ map json_id new)
                      (Request token :: map delivery new)).
  { rewrite (walk_step yt h fuel token con response token' Hyt Htok Hh), Hseen.
    now rewrite orb_true_r. }
  split; [exact Hw|].
  intros -> path. unfold fetch. cbn [__progress_db __youtube __update].
  now rewrite Hw.
Qed.

Lemma mixed_page_delivers_unseen_and_stops_witness :
  fetch (monitor feed_mixed always_returns) ["c"] 3 =
    mkCycle Returned ["c"; "a"; "b"; "d"]
            [Request None; delivery item_a; delivery item_b; delivery item_d].
Proof.
  refine (proj2 (mixed_page_delivers_unseen_and_stops
                   feed_mixed always_returns 2 None ["c"]
                   (mkResponse (Some "p2") [item_a; item_b; item_c; item_d])
                   "p2" _ _ _ _) _ "progress.db"); reflexivity.
Defined.

(** ** Tables without repeated identifiers *)

(** The identifiers of the unseen items of a page are as distinct as those of
    the page. *)
Lemma unseen_ids_distinct (con : list Id) (page : list Json) :
  NoDup (map json_id page) ->
  NoDup (map json_id (filter (unseen con) page)).
Proof.
  intros Hpage. induction page as [|j page IH]; cbn [filter map] in *.
  - constructor.
  - apply NoDup_cons_iff in Hpage. destruct Hpage as [Hfresh Hrest].
    destruct (unseen con j); cbn [map]; [|exact (IH Hrest)].
    apply NoDup_cons; [|exact (IH Hrest)].
    contradict Hfresh. apply in_map_iff in Hfresh.
    destruct Hfresh as [j' [Hid Hj']]. rewrite <- Hid.
    apply in_map. apply filter_In in Hj'. tauto.
Qed.

Lemma unseen_not_in (con : list Id) (j : Json) :
  NoDup con -> unseen con j = true -> ~ In (json_id j) con.
Proof.
  intros Hnd Hu Hin. unfold unseen in Hu.
  rewrite (is_fetched_nodup _ _ Hnd Hin) in Hu. discriminate.
Qed.

Lemma page_insert_nodup (con : list Id) (l : list Json) :
  NoDup con -> NoDup (map json_id l) ->
  NoDup (con ++ map json_id (filter (unseen con) l)).
Proof.
  intros Hc Hl. apply NoDup_app; [exact Hc|now apply unseen_ids_distinct|].
  intros i Hi Hin. apply in_map_iff in Hin. destruct Hin as [j [Hj Hjin]].
  apply filter_In in Hjin. destruct Hjin as [_ Hu]. subst i.
  exact (unseen_not_in _ _ Hc Hu Hi).
Qed.

Lemma none_seen_all_unseen (con : list Id) (l : list Json) :
  existsb (seen con) l = false -> filter (unseen con) l = l.
Proof.
  intros H. apply forallb_filter_id. apply forallb_forall. intros j Hj.
  unfold unseen. destruct (_is_fetched (json_id j) con) eqn:Hf; [|reflexivity].
  assert (existsb (seen con) l = true); [|congruence].
  apply existsb_exists. now exists j.
Qed.

Section Feed.

Variable yt : Client.
Variable upd : option Handler.
Hypothesis Hdistinct : pages_distinct yt.

Lemma walk_nodup (fuel : nat) : forall token con,
  NoDup con -> NoDup (walk_con (while_true yt upd fuel token con)).
Proof.
  induction fuel as [|fuel IH]; intros token con Hnd.
  - exact Hnd.
  - walk_cases yt token upd con; try exact Hnd.
    + rewrite (for_items_ok _ _ _ _ _ Hpage). cbn [page_buffer app].
      rewrite insert_all_app. apply page_insert_nodup; eauto.
    + apply IH. rewrite (for_items_ok _ _ _ _ _ Hpage). cbn [page_buffer app].
      rewrite insert_all_app. apply page_insert_nodup; eauto.
Qed.

Variable universe : list Id.
Hypothesis Hwithin : feed_within yt universe.

(** Each page that does not stop the walk adds an identifier of the
    universe to the table, so the walk cannot go on for more iterations
    than the universe has identifiers left. *)
Lemma walk_terminates (fuel : nat) : forall token con,
  NoDup con -> incl con universe ->
  List.length universe < List.length con + fuel ->
  walk_signal (while_true yt upd fuel token con) <> Running.
Proof.
  induction fuel as [|fuel IH]; intros token con Hnd Hincl Hlen.
  - pose proof (NoDup_incl_length Hnd Hincl) as Hle. lia.
  - walk_cases yt token upd con; try discriminate.
    pose proof (for_items_ok _ _ _ _ _ Hpage) as Hok.
    rewrite Hok in *. cbn [page_buffer page_finished app orb] in *.
    rewrite insert_all_app.
    rewrite (none_seen_all_unseen _ _ Hfin).
    apply IH.
    + rewrite <- (none_seen_all_unseen _ _ Hfin).
      apply page_insert_nodup; eauto.
    + apply incl_app; [exact Hincl|]. intros i Hi.
      apply in_map_iff in Hi. destruct Hi as [j [Hj Hjin]]. subst i.
      eapply Hwithin; eauto.
    + rewrite length_app, length_map.
      destruct (items response); [discriminate|]. simpl in *. lia.
Qed.

End Feed.

(** A page of recorded identifiers, on a table without repetition: nothing
    is delivered. *)
Lemma for_items_all_seen (upd : option Handler) (con : list Id) (l : list Json) :
  forall is_finished buffer,
    (forall j, In j l -> _is_fetched (json_id j) con = true) ->
    for_items upd con l is_finished buffer =
      mkPage None (match l with [] => is_finished | _ => true end) buffer [].
Proof.
  induction l as [|j l IH]; intros fin buf H; cbn [for_items].
  - reflexivity.
  - rewrite (H j) by now left. rewrite IH by (intros; apply H; now right).
    destruct l; reflexivity.
Qed.

Lemma walk_all_seen (yt : Client) (upd : option Handler) (con : list Id)
      (fuel : nat) (token : option Token) :
  NoDup con ->
  (forall t response j, yt t = Some response -> In j (items response) ->
                        In (json_id j) con) ->
  updates (walk_log (while_true yt upd fuel token con)) = [] /\
  (0 < fuel -> walk_signal (while_true yt upd fuel token con) <> Running).
Proof.
  intros Hnd Hall. destruct fuel as [|fuel]; [simpl; split; [reflexivity|lia]|].
  assert (Hseen : forall response, yt token = Some response ->
            for_items upd con (items response) false [] =
            mkPage None (match items response with [] => false | _ => true end)
                   [] []).
  { intros response Hyt. apply for_items_all_seen. intros j Hj.
    apply is_fetched_nodup; [exact Hnd|]. eapply Hall; eauto. }
  walk_cases yt token upd con;
    try (split; [reflexivity|discriminate]).
  - rewrite (Hseen _ eq_refl) in Hpage. discriminate.
  - rewrite (Hseen _ eq_refl). split; [reflexivity|discriminate].
  - rewrite (Hseen _ eq_refl) in Hfin. cbn [page_finished] in Hfin.
    destruct (items response); discriminate.
Qed.

(** On every page whose response carries a continuation token and for whose
    unseen items the update function returns, the walk stops exactly when the
    page is empty or holds a seen identifier, and otherwise requests the next
    page; and on a feed that draws its identifiers from a finite set and lists
    none twice in a page, over a table that holds none twice, the cycle ends
    once it is allowed more iterations than the set has identifiers. *)
Lemma walk_stops_at_empty_or_seen_page
      (yt : Client) (h : Handler) (path : Path) (db universe : list Id) :
  pages_distinct yt ->
  feed_within yt universe ->
  NoDup db ->
  incl db universe ->
  (forall fuel,
     List.length universe < fuel ->
     cycle_outcome (fetch (mkMonitor (Some yt) (Some h) (Some path)) db fuel)
     <> Unfinished) /\
  (forall fuel token con response token',
     yt token = Some response ->
     nextPageToken response = Some token' ->
     (forall j, In j (items response) -> unseen con j = true ->
                h (mkEvent j) = true) ->
     let new := filter (unseen con) (items response) in
     while_true yt (Some h) (S fuel) token con =
       if (List.length (items response) =? 0)
          || existsb (seen con) (items response)
       then mkWalk Break (con ++ map json_id new)
                   (Request token :: map delivery new)
       else logged (Request token :: map delivery new)
                   (while_true yt (Some h) fuel (Some token')
                               (con ++ map json_id new))).
Proof.
  intros Hd Hw Hnd Hincl. split.
  - intros fuel Hlen. unfold fetch. cbn [__progress_db __youtube __update].
    pose proof (walk_terminates yt (Some h) Hd universe Hw fuel None db
                                Hnd Hincl ltac:(lia)) as Hrun.
    destruct (walk_signal (while_true yt (Some h) fuel None db));
      cbn [cycle_outcome]; congruence.
  - intros fuel token con response token'. apply walk_step.
Qed.

(** C5: a response without continuation token does not stop the walk as the
    empty page and the seen identifier do.  Whatever the page holds, reading
    the token raises before the items are looked at: the update function is
    not called, nothing is recorded and [fetch] does not return.  On the
    first page this is the whole cycle, and on a later page the same holds
    for the rest of it. *)
Theorem exhausted_token_raises
        (yt : Client) (upd : option Handler) (fuel : nat)
        (token : option Token) (con : list Id) (response : Response) :
  yt token = Some response ->
  nextPageToken response = None ->
  while_true yt upd (S fuel) token con =
    mkWalk (Raise KeyError) con [Request token] /\
  (token = None ->
   forall path,
     fetch (mkMonitor (Some yt) upd (Some path)) con (S fuel) =
     mkCycle (Raised KeyError) con [Request None]).
Proof.
  intros Hyt Htok.
  assert (Hw : while_true yt upd (S fuel) token con =
               mkWalk (Raise KeyError) con [Request token]).
  { cbn [while_true]. now rewrite Hyt, Htok. }
  split; [exact Hw|].
  intros -> path. unfold fetch. cbn [__progress_db __youtube __update].
  now rewrite Hw.
Qed.

Lemma exhausted_token_raises_witness :
  fetch (monitor feed_last_page always_returns) [] 3 =
  mkCycle (Raised KeyError) [] [Request None].
Proof.
  refine (proj2 (exhausted_token_raises
                   feed_last_page (Some always_returns) 2 None []
                   (mkResponse None [item_a]) _ _) _ "progress.db");
    reflexivity.
Defined.

Lemma feed_two_items_distinct : pages_distinct feed_two_items.
Proof.
  intros [t|] response H; inversion H; subst; simpl.
  - constructor.
  - repeat constructor; simpl; intuition discriminate.
Qed.

(** ** A drained feed *)

(** C9: a drained feed is delivered again when an identifier is stored
    twice.  On the feed whose first page lists the item [a] twice, the first
    [fetch] returns and leaves the row [a] twice; the feed then returns
    nothing but [a], which is recorded, and the second [fetch] calls the
    update function for [a] twice more, because [_is_fetched] finds two rows
    and answers false. *)
Theorem drained_feed_delivered_again :
  let first := fetch (monitor feed_repeated_item always_returns) [] 3 in
  let second := fetch (monitor feed_repeated_item always_returns)
                      (stored first) 3 in
  cycle_outcome first = Returned /\
  stored first = ["a"; "a"] /\
  (forall token response j,
      feed_repeated_item token = Some response -> In j (items response) ->
      In (json_id j) (stored first)) /\
  cycle_outcome second = Returned /\
  updates (log second) = [mkEvent item_a; mkEvent item_a].
Proof.
  cbv zeta. split; [reflexivity|]. split; [reflexivity|].
  split; [|split; reflexivity].
  intros [t|] response j H; inversion H; subst; simpl.
  - tauto.
  - intros [Hj|[Hj|[]]]; subst; simpl; auto.
Qed.

(** X15: after a [fetch] that returned, on a table and a feed whose pages hold
    no identifier twice, if the feed then returns only items whose
    identifiers are recorded, a second [fetch] calls the update function zero
    times, and it ends within its first iteration. *)
Theorem second_fetch_is_silent
        (yt1 yt2 : Client) (upd1 upd2 : option Handler) (path : Path)
        (db : list Id) (fuel1 fuel2 : nat) :
  NoDup db ->
  pages_distinct yt1 ->
  cycle_outcome (fetch (mkMonitor (Some yt1) upd1 (Some path)) db fuel1)
  = Returned ->
  (forall token response j,
      yt2 token = Some response -> In j (items response) ->
      In (json_id j)
         (stored (fetch (mkMonitor (Some yt1) upd1 (Some path)) db fuel1))) ->
  let c2 := fetch (mkMonitor (Some yt2) upd2 (Some path))
                  (stored (fetch (mkMonitor (Some yt1) upd1 (Some path)) db fuel1))
                  fuel2 in
  updates (log c2) = [] /\
  (0 < fuel2 -> cycle_outcome c2 <> Unfinished).
Proof.
  intros Hnd Hd Hret Hall c2.
  assert (Hnd1 : NoDup (stored (fetch (mkMonitor (Some yt1) upd1 (Some path))
                                      db fuel1))).
  { unfold fetch. cbn [__progress_db __youtube __update].
    destruct (walk_signal (while_true yt1 upd1 fuel1 None db)) eqn:Hs;
      cbn [stored]; try exact Hnd.
    now apply walk_nodup. }
  destruct (walk_all_seen yt2 upd2 _ fuel2 None Hnd1 Hall) as [Hup Hrun].
  subst c2. split.
  - now rewrite fetch_walk.
  - intros Hpos. specialize (Hrun Hpos). unfold fetch.
    cbn [__progress_db __youtube __update].
    destruct (walk_signal (while_true yt2 upd2 fuel2 None _));
      cbn [cycle_outcome]; congruence.
Qed.

Lemma second_fetch_is_silent_witness :
  updates
    (log (fetch (monitor feed_two_items always_returns)
                (stored (fetch (monitor feed_two_items always_returns) [] 3))
                3)) = [].
Proof.
  refine (proj1 (second_fetch_is_silent
                   feed_two_items feed_two_items
                   (Some always_returns) (Some always_returns)
                   "progress.db" [] 3 3 _ feed_two_items_distinct _ _)).
  - constructor.
  - reflexivity.
  - intros [t|] response j H; inversion H; subst; simpl.
    + tauto.
    + intros [Hj|[Hj|[]]]; subst; simpl; auto.
Defined.

(** ** The repeating timer *)

Lemma count_assign (f : pc -> bool) (l : list pc) : forall i q p,
  nth_error l i = Some q ->
  List.length (filter f (assign l i p)) + b2n (f q) =
  List.length (filter f l) + b2n (f p).
Proof.
  induction l as [|x l IH]; intros [|i] q p H; simpl in *; try discriminate.
  - inversion H; subst. unfold b2n.
    destruct (f q), (f p); simpl; lia.
  - specialize (IH i q p H). destruct (f x); simpl; lia.
Qed.

Lemma sum_assign {A} (g : A -> nat) (l : list A) : forall o t t',
  nth_error l o = Some t ->
  list_sum (map g (assign l o t')) + g t = list_sum (map g l) + g t'.
Proof.
  induction l as [|x l IH]; intros [|o] t t' H; simpl in *; try discriminate.
  - inversion H; subst. lia.
  - specialize (IH o t t' H). lia.
Qed.

Lemma start_timer_alive (t : AutoFetchTimer) :
  alive_timers (_start_timer t) <= alive_timers t + 1.
Proof.
  unfold _start_timer, alive_timers. destruct (_should_continue t); simpl.
  - rewrite filter_app, length_app. simpl. lia.
  - lia.
Qed.

(** No step of a [Timer] raises the number of [Timer]s that wait or
    execute: the one [_start_timer] creates replaces the one that ends. *)
Lemma handle_target_step_alive (i : nat) (raises : bool) (t : AutoFetchTimer) :
  alive_timers (_handle_target_step i raises t) <= alive_timers t.
Proof.
  unfold _handle_target_step.
  destruct (nth_error (timers t) i) as [q|] eqn:Hq; [|lia].
  destruct q; try lia.
  - pose proof (count_assign alive _ _ _ Line172 Hq) as H.
    unfold alive_timers, goto; simpl in *. lia.
  - pose proof (count_assign alive _ _ _ Line173 Hq) as H.
    unfold alive_timers, goto; simpl in *. lia.
  - pose proof (count_assign alive _ _ _ (if raises then Crashed else Line174) Hq)
      as H.
    unfold alive_timers, goto; simpl in *. destruct raises; simpl in *; lia.
  - pose proof (count_assign alive _ _ _ Line175 Hq) as H.
    unfold alive_timers, goto; simpl in *. lia.
  - pose proof (count_assign alive _ _ _ Done Hq) as H.
    pose proof (start_timer_alive (goto t i Done)) as H'.
    unfold alive_timers, goto in *; simpl in *. lia.
Qed.

Lemma timer_cancel_alive (t t' : AutoFetchTimer) :
  timer_cancel t = Some t' -> alive_timers t' <= alive_timers t.
Proof.
  unfold timer_cancel. destruct (thread t) as [i|]; [|discriminate].
  intros H. inversion H; subst. unfold alive_timers, cancel_thread. simpl.
  destruct (nth_error (timers t) i) as [q|] eqn:Hq; [|lia].
  destruct q; try lia.
  pose proof (count_assign alive _ _ _ Cancelled Hq) as H'. simpl in *. lia.
Qed.

Lemma live_assign (s : Scheduler) (o : nat) (t t' : AutoFetchTimer) :
  nth_error (heap s) o = Some t ->
  alive_timers t' <= alive_timers t ->
  live (mkScheduler (__autofetch_timer s) (assign (heap s) o t')) <= live s.
Proof.
  intros Ho Hle. unfold live, count_pc. cbn [heap].
  pose proof (sum_assign alive_timers (heap s) o t t' Ho) as H.
  unfold alive_timers in *. lia.
Qed.

Lemma act_live (s : Scheduler) (a : action) :
  is_start a = false -> live (act s a) <= live s.
Proof.
  destruct a as [interval| |o i raises]; simpl; intros H; [discriminate| |].
  - unfold stop. destruct (__autofetch_timer s) as [o|]; [|lia].
    destruct (nth_error (heap s) o) as [t|] eqn:Ho; [|lia].
    destruct (timer_cancel t) as [t'|] eqn:Hc; [|lia].
    eapply live_assign; eauto using timer_cancel_alive.
  - destruct (nth_error (heap s) o) as [t|] eqn:Ho; [|lia].
    eapply live_assign; eauto using handle_target_step_alive.
Qed.

Lemma run_live (acts : list action) : forall s,
  forallb (fun a => negb (is_start a)) acts = true ->
  live (run acts s) <= live s.
Proof.
  induction acts as [|a acts IH]; intros s H; simpl in *.
  - lia.
  - apply andb_prop in H. destruct H as [Ha H].
    apply negb_true_iff in Ha.
    pose proof (IH (act s a) H). pose proof (act_live s a Ha). unfold run in *.
    lia.
Qed.

Lemma flight_pending_live (s : Scheduler) :
  in_flight s + pending s <= live s.
Proof.
  unfold in_flight, pending, live, count_pc.
  induction (heap s) as [|t l IH]; simpl; [lia|].
  assert (List.length (filter in_target (timers t))
          + List.length (filter pending_pc (timers t))
          <= List.length (filter alive (timers t))); [|lia].
  induction (timers t) as [|p ps IHp]; simpl; [lia|].
  destruct p; simpl; lia.
Qed.

(** [__AutoFetchTimer.start] on a timer that was started does nothing. *)
Lemma timer_start_twice (t : AutoFetchTimer) :
  _should_continue t = true -> timer_start t = t.
Proof. unfold timer_start. now intros ->. Qed.

(** C2: after one [start(interval)] on an idle monitor, whatever the steps of
    its timer threads and the calls of [stop] that follow, however they
    interleave and however short the interval, at most one [Timer] waits or
    executes: at most one fetch cycle is in flight, and while one is in
    flight no tick is scheduled. *)
Theorem one_cycle_in_flight (interval : nat) (acts : list action) :
  forallb (fun a => negb (is_start a)) acts = true ->
  let s := run acts (start interval idle) in
  live s <= 1 /\ in_flight s <= 1 /\ (0 < in_flight s -> pending s = 0).
Proof.
  intros H s.
  assert (Hl : live s <= 1).
  { subst s. pose proof (run_live acts (start interval idle) H) as Hr.
    assert (live (start interval idle) = 1) by reflexivity. lia. }
  pose proof (flight_pending_live s). lia.
Qed.

Lemma one_cycle_in_flight_witness :
  in_flight (run [Tick 0 0 false; Tick 0 0 false] (start 5 idle)) <= 1.
Proof.
  refine (proj1 (proj2 (one_cycle_in_flight
                          5 [Tick 0 0 false; Tick 0 0 false] _))).
  reflexivity.
Defined.

(** C7: the monitor's [start] builds a new timer object at every call and
    starts it, so a second [start] while running leaves two timers waiting,
    two fetch cycles can then be in flight together, and [stop] cancels only
    the second timer. *)
Theorem second_start_adds_a_timer :
  let s1 := start 5 idle in
  let s2 := start 5 s1 in
  running s1 = true /\ List.length (heap s1) = 1 /\ pending s1 = 1 /\
  running s2 = true /\ List.length (heap s2) = 2 /\ pending s2 = 2 /\
  in_flight (run [Tick 0 0 false; Tick 0 0 false;
                  Tick 1 0 false; Tick 1 0 false] s2) = 2 /\
  pending (stop s2) = 1.
Proof. vm_compute. repeat split. Qed.

(** * Further properties of the fetch cycle *)

Lemma updates_app (ev ev' : list event) :
  updates (ev ++ ev') = updates ev ++ updates ev'.
Proof.
  induction ev as [|[t|e b] ev IH]; simpl; [reflexivity|exact IH|].
  now rewrite IH.
Qed.

Lemma updates_delivery (l : list Json) :
  map get_id (updates (map delivery l)) = map json_id l.
Proof.
  induction l as [|j l IH]; simpl; [reflexivity|]. now rewrite IH.
Qed.

(** A walk that ends by [break] has inserted the identifiers of the items it
    delivered, in the order of the deliveries. *)
Lemma walk_appends_delivered (yt : Client) (upd : option Handler) (fuel : nat) :
  forall token con,
    walk_signal (while_true yt upd fuel token con) = Break ->
    walk_con (while_true yt upd fuel token con) =
    con ++ map get_id (updates (walk_log (while_true yt upd fuel token con))).
Proof.
  induction fuel as [|fuel IH]; intros token con.
  - simpl. discriminate.
  - walk_cases yt token upd con; intros Hs; try discriminate.
    + simpl. now rewrite app_nil_r.
    + rewrite (for_items_ok _ _ _ _ _ Hpage).
      cbn [page_buffer page_log app updates]. rewrite insert_all_app.
      now rewrite updates_delivery.
    + rewrite (IH _ _ Hs). rewrite (for_items_ok _ _ _ _ _ Hpage).
      cbn [page_buffer page_log app updates]. rewrite insert_all_app.
      rewrite updates_app, map_app, updates_delivery, app_assoc.
      reflexivity.
Qed.

(** X1: [fetch] changes the table only when it returns, and then only by
    appending, after the rows that were there, the identifiers of the items
    it delivered, in the order of the deliveries; every call of the update
    function in a cycle that returned has returned. *)
Theorem fetch_appends_delivered (self : YTSCMonitor) (db : list Id) (fuel : nat) :
  stored (fetch self db fuel) =
    db ++ match cycle_outcome (fetch self db fuel) with
          | Returned => map get_id (updates (log (fetch self db fuel)))
          | _ => []
          end /\
  (cycle_outcome (fetch self db fuel) = Returned ->
   forall e b, In (Update e b) (log (fetch self db fuel)) -> b = true).
Proof.
  unfold fetch.
  destruct (__progress_db self); [|simpl; rewrite app_nil_r; split;
                                   [reflexivity|discriminate]].
  destruct (__youtube self) as [yt|]; [|simpl; rewrite app_nil_r; split;
                                        [reflexivity|discriminate]].
  destruct (walk_signal (while_true yt (__update self) fuel None db)) eqn:Hs;
    cbn [stored cycle_outcome log].
  - split; [now apply walk_appends_delivered|].
    intros _ e [|] Hin; [reflexivity|].
    apply walk_update_failed in Hin. destruct Hin as [Hr _]. congruence.
  - rewrite app_nil_r. split; [reflexivity|discriminate].
  - rewrite app_nil_r. split; [reflexivity|discriminate].
Qed.

(** The identifiers a page delivers are the first of the identifiers of its
    unseen items. *)
Lemma page_updates_prefix (upd : option Handler) (con : list Id) (l : list Json) :
  forall is_finished buffer,
  exists rest,
    map json_id (filter (unseen con) l) =
    map get_id (updates (page_log (for_items upd con l is_finished buffer)))
    ++ rest.
Proof.
  induction l as [|j l IH]; intros fin buf; cbn [for_items filter].
  - now exists [].
  - replace (unseen con j) with (negb (_is_fetched (json_id j) con))
      by reflexivity.
    destruct (_is_fetched (json_id j) con); cbn [negb]; [apply IH|].
    destruct upd as [h|]; cbn [page_log updates map].
    + destruct (h (mkEvent j)); cbn [page_log updates map].
      * destruct (IH fin (buf ++ [get_id (mkEvent j)])) as [rest Hr].
        exists rest. rewrite Hr. reflexivity.
      * now exists (map json_id (filter (unseen con) l)).
    + now exists (json_id j :: map json_id (filter (unseen con) l)).
Qed.

Lemma walk_delivers_once (yt : Client) (upd : option Handler) (fuel : nat) :
  pages_distinct yt ->
  forall token con,
    NoDup con ->
    NoDup (con ++ map get_id
                     (updates (walk_log (while_true yt upd fuel token con)))).
Proof.
  intros Hd. induction fuel as [|fuel IH]; intros token con Hnd.
  - simpl. now rewrite app_nil_r.
  - walk_cases yt token upd con; cbn [updates map];
      try (now rewrite app_nil_r).
    + destruct (page_updates_prefix upd con (items response) false [])
        as [rest Hr].
      pose proof (page_insert_nodup con (items response) Hnd (Hd _ _ Hyt))
        as Hall.
      rewrite Hr, app_assoc in Hall. now apply NoDup_app_remove_r in Hall.
    + rewrite (for_items_ok _ _ _ _ _ Hpage). cbn [page_log].
      rewrite updates_delivery. apply page_insert_nodup; eauto.
    + rewrite updates_app, map_app, app_assoc.
      pose proof (for_items_ok _ _ _ _ _ Hpage) as Hok.
      rewrite Hok. cbn [page_log page_buffer app updates].
      rewrite updates_delivery, insert_all_app.
      apply IH. apply page_insert_nodup; eauto.
Qed.

(** X2: on a table that holds no identifier twice and a feed that lists none
    twice in a page, one cycle delivers no identifier twice, also across its
    pages, and none that the table held before the cycle. *)
Theorem fetch_delivers_once
        (yt : Client) (upd : option Handler) (path : Path) (db : list Id)
        (fuel : nat) :
  NoDup db ->
  pages_distinct yt ->
  NoDup (db ++ map get_id
                   (updates (log (fetch (mkMonitor (Some yt) upd (Some path))
                                        db fuel)))).
Proof.
  intros Hnd Hd. rewrite fetch_walk. now apply walk_delivers_once.
Qed.

Lemma fetch_delivers_once_witness :
  NoDup (["c"] ++ map get_id
                     (updates (log (fetch (monitor feed_two_items always_returns)
                                          ["c"] 3)))).
Proof.
  refine (fetch_delivers_once feed_two_items (Some always_returns)
                              "progress.db" ["c"] 3 _ feed_two_items_distinct).
  repeat constructor. simpl. tauto.
Defined.

Lemma in_updates (ev : list event) (e : YTSCEvent) (b : bool) :
  In (Update e b) ev -> In e (updates ev).
Proof.
  induction ev as [|[t|e' b'] ev IH]; simpl; [tauto| |].
  - intros [H|H]; [discriminate|auto].
  - intros [H|H]; [inversion H; auto|auto].
Qed.

Lemma nodup_app_apart {A} (l l' : list A) (a : A) :
  NoDup (l ++ l') -> In a l -> In a l' -> False.
Proof.
  induction l as [|x l IH]; simpl; [tauto|].
  intros Hnd [Hx|Hin] Hin'.
  - subst x. apply NoDup_cons_iff in Hnd. destruct Hnd as [Hfresh _].
    apply Hfresh. apply in_or_app. now right.
  - apply NoDup_cons_iff in Hnd. destruct Hnd as [_ Hnd]. now apply IH.
Qed.

Lemma fetch_nodup (self : YTSCMonitor) (db : list Id) (fuel : nat) :
  NoDup db ->
  (forall yt, __youtube self = Some yt -> pages_distinct yt) ->
  NoDup (stored (fetch self db fuel)).
Proof.
  intros Hnd Hd. unfold fetch.
  destruct (__progress_db self); [|exact Hnd].
  destruct (__youtube self) as [yt|]; [|exact Hnd].
  destruct (walk_signal _); cbn [stored]; try exact Hnd.
  apply walk_nodup; auto.
Qed.

Lemma fetch_grows (self : YTSCMonitor) (db : list Id) (fuel : nat) :
  incl db (stored (fetch self db fuel)).
Proof.
  unfold fetch.
  destruct (__progress_db self); [|apply incl_refl].
  destruct (__youtube self) as [yt|]; [|apply incl_refl].
  destruct (walk_signal _) eqn:Hs; cbn [stored]; try apply incl_refl.
  rewrite (walk_appends_delivered _ _ _ _ _ Hs). now apply incl_appl.
Qed.

Lemma cycles_nodup (runs : list (YTSCMonitor * nat)) : forall db,
  NoDup db -> Forall distinct_run runs -> NoDup (fst (cycles runs db)).
Proof.
  induction runs as [|[self fuel] runs IH]; intros db Hnd Hruns; cbn [cycles].
  - exact Hnd.
  - apply Forall_cons_iff in Hruns. destruct Hruns as [Hrun Hruns].
    specialize (IH (stored (fetch self db fuel))
                   (fetch_nodup self db fuel Hnd Hrun) Hruns).
    destruct (cycles runs (stored (fetch self db fuel))). exact IH.
Qed.

Lemma cycles_grow (runs : list (YTSCMonitor * nat)) : forall db,
  incl db (fst (cycles runs db)).
Proof.
  induction runs as [|[self fuel] runs IH]; intros db; cbn [cycles].
  - apply incl_refl.
  - specialize (IH (stored (fetch self db fuel))).
    destruct (cycles runs (stored (fetch self db fuel))).
    eapply incl_tran; [apply fetch_grows|exact IH].
Qed.

(** X3: on tables and feeds that hold no identifier twice, an item delivered
    in a cycle that returned is not delivered again by any later cycle,
    whatever cycles run in between and whatever their outcome. *)
Theorem delivered_never_again
        (yt1 yt3 : Client) (upd1 upd3 : option Handler) (path : Path)
        (db : list Id) (fuel1 fuel3 : nat) (runs : list (YTSCMonitor * nat))
        (e e' : YTSCEvent) (b b' : bool) :
  NoDup db ->
  pages_distinct yt1 ->
  Forall distinct_run runs ->
  pages_distinct yt3 ->
  cycle_outcome (fetch (mkMonitor (Some yt1) upd1 (Some path)) db fuel1)
  = Returned ->
  In (Update e b) (log (fetch (mkMonitor (Some yt1) upd1 (Some path)) db fuel1)) ->
  In (Update e' b')
     (log (fetch (mkMonitor (Some yt3) upd3 (Some path))
                 (fst (cycles runs
                         (stored (fetch (mkMonitor (Some yt1) upd1 (Some path))
                                        db fuel1))))
                 fuel3)) ->
  get_id e' <> get_id e.
Proof.
  intros Hnd Hd1 Hruns Hd3 Hret Hin Hin' Heq.
  set (c1 := fetch (mkMonitor (Some yt1) upd1 (Some path)) db fuel1) in *.
  assert (Hnd1 : NoDup (stored c1)).
  { apply fetch_nodup; [exact Hnd|]. intros yt H. inversion H; subst. exact Hd1. }
  assert (Hrec : In (get_id e) (stored c1)).
  { subst c1. unfold fetch in *. cbn [__progress_db __youtube __update] in *.
    destruct (walk_signal (while_true yt1 upd1 fuel1 None db)) eqn:Hs;
      cbn [stored log cycle_outcome] in *; try discriminate.
    rewrite (walk_appends_delivered _ _ _ _ _ Hs).
    apply in_or_app. right. apply in_map. eapply in_updates; eauto. }
  set (db3 := fst (cycles runs (stored c1))) in *.
  assert (Hnd3 : NoDup db3) by (now apply cycles_nodup).
  assert (Hrec3 : In (get_id e) db3) by (now apply cycles_grow).
  rewrite fetch_walk in Hin'.
  pose proof (walk_delivers_once yt3 upd3 fuel3 Hd3 None db3 Hnd3) as Honce.
  apply (nodup_app_apart _ _ (get_id e) Honce Hrec3).
  rewrite <- Heq. apply in_map. eapply in_updates; eauto.
Qed.

Lemma delivered_never_again_witness :
  get_id (mkEvent item_d) <> get_id (mkEvent item_a).
Proof.
  refine (delivered_never_again
            feed_two_items feed_mixed
            (Some always_returns) (Some always_returns) "progress.db"
            ["c"] 3 3 [(monitor feed_two_items raises_on_a, 3)]
            (mkEvent item_a) (mkEvent item_d) true true _
            feed_two_items_distinct _ _ _ _ _).
  - repeat constructor. simpl. tauto.
  - constructor; [|constructor].
    intros yt H. inversion H; subst. exact feed_two_items_distinct.
  - intros [t|] response H; inversion H; subst; simpl.
    + constructor.
    + repeat constructor; simpl; intuition discriminate.
  - reflexivity.
  - vm_compute. auto.
  - vm_compute. auto.
Defined.

(** X4: cycles over feeds that list no identifier twice in a page keep a
    table without repeated identifiers that way, whatever their outcome; on
    such a table the membership test is exact: it answers true for the
    recorded identifiers and for no other. *)
Theorem table_keeps_identifiers_once
        (runs : list (YTSCMonitor * nat)) (db : list Id) :
  NoDup db ->
  Forall distinct_run runs ->
  NoDup (fst (cycles runs db)) /\
  forall i, _is_fetched i (fst (cycles runs db)) = true
            <-> In i (fst (cycles runs db)).
Proof.
  intros Hnd Hruns.
  pose proof (cycles_nodup runs db Hnd Hruns) as Hnd'.
  split; [exact Hnd'|]. intros i. split.
  - apply is_fetched_in.
  - now apply is_fetched_nodup.
Qed.

Lemma table_keeps_identifiers_once_witness :
  NoDup (fst (cycles [(monitor feed_two_items always_returns, 3)] [])).
Proof.
  refine (proj1 (table_keeps_identifiers_once
                   [(monitor feed_two_items always_returns, 3)] [] _ _)).
  - constructor.
  - constructor; [|constructor].
    intros yt H. inversion H; subst. exact feed_two_items_distinct.
Defined.

(** Without an update function, the first unseen item of a page ends the
    page before anything is logged. *)
Lemma for_items_without_update (con : list Id) (l : list Json) :
  forall is_finished buffer,
    existsb (unseen con) l = true ->
    page_raised (for_items None con l is_finished buffer) = Some TypeError /\
    page_log (for_items None con l is_finished buffer) = [].
Proof.
  induction l as [|j l IH]; intros fin buf; cbn [for_items existsb].
  - discriminate.
  - replace (unseen con j) with (negb (_is_fetched (json_id j) con))
      by reflexivity.
    destruct (_is_fetched (json_id j) con); cbn [negb orb].
    + apply IH.
    + intros _. split; reflexivity.
Qed.

(** X5: a monitor whose update function is [None], the constructor's
    default, cannot take an unseen item: on a page with a continuation token
    that holds one, the walk raises TypeError when it calls the update
    function; nothing is delivered, and when the page is the first of the
    cycle [fetch] raises and leaves the table as it was. *)
Theorem update_none_raises
        (yt : Client) (fuel : nat) (token : option Token) (con : list Id)
        (response : Response) (token' : Token) :
  yt token = Some response ->
  nextPageToken response = Some token' ->
  existsb (unseen con) (items response) = true ->
  while_true yt None (S fuel) token con =
    mkWalk (Raise TypeError) con [Request token] /\
  (token = None ->
   forall path,
     fetch (mkMonitor (Some yt) None (Some path)) con (S fuel) =
     mkCycle (Raised TypeError) con [Request None]).
Proof.
  intros Hyt Htok Hun.
  assert (Hw : while_true yt None (S fuel) token con =
               mkWalk (Raise TypeError) con [Request token]).
  { cbn [while_true]. rewrite Hyt, Htok.
    destruct (for_items_without_update con (items response) false [] Hun)
      as [Hr Hl].
    destruct (items response) as [|j l]; [discriminate|].
    cbn [List.length Nat.eqb]. now rewrite Hr, Hl. }
  split; [exact Hw|].
  intros -> path. unfold fetch. cbn [__progress_db __youtube __update].
  now rewrite Hw.
Qed.

Lemma update_none_raises_witness :
  fetch (mkMonitor (Some feed_two_items) None (Some "progress.db")) [] 3 =
  mkCycle (Raised TypeError) [] [Request None].
Proof.
  refine (proj2 (update_none_raises
                   feed_two_items 2 None []
                   (mkResponse (Some "p2") [item_a; item_b]) "p2" _ _ _)
                _ "progress.db"); reflexivity.
Defined.

(** What a page hands to the update function is an unseen item of the
    page. *)
Lemma page_update_from_page (upd : option Handler) (con : list Id)
      (l : list Json) : forall is_finished buffer e b,
    In (Update e b) (page_log (for_items upd con l is_finished buffer)) ->
    In (event_json e) l /\ unseen con (event_json e) = true.
Proof.
  induction l as [|j l IH]; intros fin buf e b; cbn [for_items].
  - simpl. tauto.
  - destruct (_is_fetched (json_id j) con) eqn:Hf.
    + intros H. destruct (IH _ _ _ _ H). split; [now right|assumption].
    + destruct upd as [h|]; cbn [page_log]; [|simpl; tauto].
      destruct (h (mkEvent j)); cbn [page_log].
      * intros [H|H].
        -- inversion H; subst. cbn [event_json]. split; [now left|].
           unfold unseen. now rewrite Hf.
        -- destruct (IH _ _ _ _ H). split; [now right|assumption].
      * intros [H|[]]. inversion H; subst. cbn [event_json].
        split; [now left|]. unfold unseen. now rewrite Hf.
Qed.

Lemma walk_update_from_feed (yt : Client) (upd : option Handler) (fuel : nat) :
  forall token con e b,
    In (Update e b) (walk_log (while_true yt upd fuel token con)) ->
    exists t response,
      In (Request t) (walk_log (while_true yt upd fuel token con)) /\
      yt t = Some response /\ In (event_json e) (items response).
Proof.
  induction fuel as [|fuel IH]; intros token con e b.
  - simpl. tauto.
  - walk_cases yt token upd con; intros Hin.
    + destruct Hin as [H|[]]. discriminate.
    + destruct Hin as [H|H]; [discriminate|].
      apply page_update_from_page in H. exists token, response.
      split; [now left|tauto].
    + destruct Hin as [H|H]; [discriminate|].
      apply page_update_from_page in H. exists token, response.
      split; [now left|tauto].
    + destruct Hin as [H|H]; [discriminate|].
      apply in_app_or in H. destruct H as [H|H].
      * apply page_update_from_page in H. exists token, response.
        split; [now left|tauto].
      * destruct (IH _ _ _ _ H) as [t [r [H1 H2]]]. exists t, r.
        split; [|exact H2]. right. apply in_or_app. now right.
    + destruct Hin as [H|[]]. discriminate.
    + destruct Hin as [H|[]]. discriminate.
Qed.

(** X6: the update function is only ever called with an item that a page
    requested in the same cycle holds. *)
Theorem delivered_items_come_from_feed
        (yt : Client) (upd : option Handler) (path : Path) (db : list Id)
        (fuel : nat) (e : YTSCEvent) (b : bool) :
  In (Update e b) (log (fetch (mkMonitor (Some yt) upd (Some path)) db fuel)) ->
  exists t response,
    In (Request t) (log (fetch (mkMonitor (Some yt) upd (Some path)) db fuel)) /\
    yt t = Some response /\ In (event_json e) (items response).
Proof. rewrite fetch_walk. apply walk_update_from_feed. Qed.

Lemma delivered_items_come_from_feed_witness :
  exists t response,
    In (Request t) (log (fetch (monitor feed_two_items always_returns) [] 3)) /\
    feed_two_items t = Some response /\ In item_b (items response).
Proof.
  apply (delivered_items_come_from_feed
           feed_two_items (Some always_returns) "progress.db" [] 3
           (mkEvent item_b) true).
  vm_compute. auto.
Defined.

Lemma requests_app (ev ev' : list event) :
  requests (ev ++ ev') = requests ev ++ requests ev'.
Proof.
  induction ev as [|[t|e b] ev IH]; simpl; [reflexivity| |exact IH].
  now rewrite IH.
Qed.

Lemma page_requests (upd : option Handler) (con : list Id) (l : list Json) :
  forall is_finished buffer,
    requests (page_log (for_items upd con l is_finished buffer)) = [].
Proof.
  induction l as [|j l IH]; intros fin buf; cbn [for_items].
  - reflexivity.
  - destruct (_is_fetched (json_id j) con); [apply IH|].
    destruct upd as [h|]; [|reflexivity].
    destruct (h (mkEvent j)); cbn [page_log requests]; [apply IH|reflexivity].
Qed.

(** The requests of a walk: the token the walk was entered with, and then,
    page after page, the token of the response just received. *)
Lemma walk_requests_follow (yt : Client) (upd : option Handler) (fuel : nat) :
  forall token con,
    match requests (walk_log (while_true yt upd fuel token con)) with
    | [] => fuel = 0
    | first :: rest => first = token /\ follows yt token rest
    end.
Proof.
  induction fuel as [|fuel IH]; intros token con.
  - reflexivity.
  - walk_cases yt token upd con;
      try rewrite requests_app; cbn [requests];
      try rewrite page_requests; cbn [app];
      try (split; [reflexivity|exact I]).
    split; [reflexivity|].
    specialize (IH (Some token')
                   (insert_all
                      (page_buffer (for_items upd con (items response) false []))
                      con)).
    destruct (requests
                (walk_log
                   (while_true yt upd fuel (Some token')
                      (insert_all
                         (page_buffer
                            (for_items upd con (items response) false []))
                         con)))) as [|t rest].
    + exact I.
    + destruct IH as [Ht Hrest]. subst t. cbn [follows]. split; [|exact Hrest].
      exists response, token'. auto.
Qed.

(** X7: a cycle that is allowed an iteration makes a first request, which
    carries no token; every later request of the cycle carries the
    continuation token of the response to the request just before it. *)
Theorem requested_tokens_come_from_feed
        (yt : Client) (upd : option Handler) (path : Path) (db : list Id)
        (fuel : nat) :
  match requests (log (fetch (mkMonitor (Some yt) upd (Some path)) db fuel)) with
  | [] => fuel = 0
  | first :: rest => first = None /\ follows yt None rest
  end.
Proof. rewrite fetch_walk. apply walk_requests_follow. Qed.

Lemma feed_two_items_within : feed_within feed_two_items ["a"; "b"].
Proof.
  intros [t|] response j H; inversion H; subst; simpl.
  - tauto.
  - intros [Hj|[Hj|[]]]; subst; simpl; auto.
Qed.

(** X8: every cycle ends, by returning or by raising, when the feed draws
    its identifiers from a finite set and lists none twice in a page, the
    table holds none twice, and the cycle is allowed more iterations than
    the set has identifiers that the table lacks: each page that does not
    end the walk records at least one of them. *)
Theorem fetch_ends_on_finite_feed
        (yt : Client) (upd : option Handler) (path : Path)
        (db universe : list Id) (fuel : nat) :
  pages_distinct yt ->
  feed_within yt universe ->
  NoDup db ->
  incl db universe ->
  List.length universe < List.length db + fuel ->
  cycle_outcome (fetch (mkMonitor (Some yt) upd (Some path)) db fuel)
  <> Unfinished.
Proof.
  intros Hd Hw Hnd Hincl Hlen. unfold fetch.
  cbn [__progress_db __youtube __update].
  pose proof (walk_terminates yt upd Hd universe Hw fuel None db
                              Hnd Hincl Hlen) as Hrun.
  destruct (walk_signal (while_true yt upd fuel None db));
    cbn [cycle_outcome]; congruence.
Qed.

Lemma fetch_ends_on_finite_feed_witness :
  cycle_outcome (fetch (monitor feed_two_items raises_on_a) ["b"] 2)
  <> Unfinished.
Proof.
  refine (fetch_ends_on_finite_feed
            feed_two_items (Some raises_on_a) "progress.db" ["b"] ["a"; "b"] 2
            feed_two_items_distinct feed_two_items_within _ _ _).
  - repeat constructor. simpl. tauto.
  - intros i [Hi|[]]. subst. simpl. auto.
  - simpl. lia.
Defined.

(** * Further properties of the repeating timer *)

Lemma length_assign {A} (l : list A) : forall i x,
  List.length (assign l i x) = List.length l.
Proof.
  induction l as [|y l IH]; intros [|i] x; simpl; auto.
Qed.

Lemma Forall_assign {A} (P : A -> Prop) (l : list A) : forall i x,
  Forall P l -> P x -> Forall P (assign l i x).
Proof.
  induction l as [|y l IH]; intros [|i] x Hl Hx; simpl; auto;
    apply Forall_cons_iff in Hl; destruct Hl as [Hy Hl];
    constructor; auto.
Qed.

Lemma count_nth (f : pc -> bool) (l : list pc) : forall i q,
  nth_error l i = Some q -> f q = true -> 1 <= List.length (filter f l).
Proof.
  induction l as [|x l IH]; intros [|i] q H Hq; simpl in *; try discriminate.
  - inversion H; subst. rewrite Hq. simpl. lia.
  - specialize (IH i q H Hq). destruct (f x); simpl; lia.
Qed.

Lemma pending_le_alive (l : list pc) :
  List.length (filter pending_pc l) <= List.length (filter alive l).
Proof.
  induction l as [|p l IH]; simpl; [lia|]. destruct p; simpl; lia.
Qed.

(** A [Timer] that executes counts among the alive ones and not among the
    waiting ones. *)
Lemma executing_not_pending (l : list pc) : forall i q,
  nth_error l i = Some q -> alive q = true -> pending_pc q = false ->
  List.length (filter pending_pc l) + 1 <= List.length (filter alive l).
Proof.
  induction l as [|x l IH]; intros [|i] q H Ha Hp; simpl in *; try discriminate.
  - inversion H; subst. rewrite Ha, Hp. simpl.
    pose proof (pending_le_alive l). lia.
  - specialize (IH i q H Ha Hp). destruct x; simpl; lia.
Qed.

Lemma step_keeps_thread (i : nat) (raises : bool) (t : AutoFetchTimer) :
  thread t <> None -> thread (_handle_target_step i raises t) <> None.
Proof.
  intros Ht. unfold _handle_target_step.
  destruct (nth_error (timers t) i) as [[]|]; cbn [goto thread]; try exact Ht.
  unfold _start_timer. cbn [goto _should_continue].
  destruct (_should_continue t); cbn [goto thread]; [discriminate|exact Ht].
Qed.

Lemma act_cancellable (s : Scheduler) (a : action) :
  cancellable s -> cancellable (act s a).
Proof.
  intros Hs. pose proof Hs as [Href Hall].
  destruct a as [interval| |o i raises]; cbn [act].
  - unfold start, cancellable. cbn [__autofetch_timer heap]. split.
    + intros o H. inversion H; subst. rewrite length_app. simpl. lia.
    + apply Forall_app. split; [exact Hall|].
      constructor; [|constructor]. discriminate.
  - unfold stop. destruct (__autofetch_timer s) as [o|] eqn:Ho; [|exact Hs].
    destruct (nth_error (heap s) o) as [t|] eqn:Hn; [|exact Hs].
    destruct (timer_cancel t) as [t'|] eqn:Hc; [|exact Hs].
    unfold cancellable. cbn [__autofetch_timer heap]. split.
    + intros o' H. rewrite length_assign. now apply Href.
    + apply Forall_assign; [exact Hall|].
      unfold timer_cancel in Hc. destruct (thread t) eqn:Ht; [|discriminate].
      inversion Hc; subst. cbn [thread]. congruence.
  - destruct (nth_error (heap s) o) as [t|] eqn:Hn; [|exact Hs].
    unfold cancellable. cbn [__autofetch_timer heap]. split.
    + intros o' H. rewrite length_assign. now apply Href.
    + apply Forall_assign; [exact Hall|]. apply step_keeps_thread.
      rewrite Forall_forall in Hall. apply Hall. eapply nth_error_In; eauto.
Qed.

Lemma run_cancellable (acts : list action) : forall s,
  cancellable s -> cancellable (run acts s).
Proof.
  induction acts as [|a acts IH]; intros s H; simpl; [exact H|].
  apply IH. now apply act_cancellable.
Qed.

(** X9: [stop] never fails on [self.thread.cancel()]: however the monitor's
    [start] and [stop] and the steps of the timer threads have followed one
    another since the monitor was idle, the timer object the monitor holds
    exists and its [thread] is a [Timer], because every timer object is
    started in the call that creates it. *)
Theorem stop_never_raises (acts : list action) (o : nat) :
  __autofetch_timer (run acts idle) = Some o ->
  exists t t',
    nth_error (heap (run acts idle)) o = Some t /\ timer_cancel t = Some t'.
Proof.
  intros Ho.
  assert (Hc : cancellable (run acts idle)).
  { apply run_cancellable. split; [discriminate|constructor]. }
  destruct Hc as [Href Hall]. specialize (Href o Ho).
  destruct (nth_error (heap (run acts idle)) o) as [t|] eqn:Hn.
  - rewrite Forall_forall in Hall.
    pose proof (Hall t (nth_error_In _ _ Hn)) as Ht.
    destruct (thread t) as [i|] eqn:Hth; [|congruence].
    exists t. eexists. split; [reflexivity|].
    unfold timer_cancel. rewrite Hth. reflexivity.
  - apply nth_error_None in Hn. lia.
Qed.

Lemma stop_never_raises_witness :
  exists t t',
    nth_error (heap (run [CallStart 5; Tick 0 0 false; CallStop; CallStart 2]
                         idle)) 1 = Some t /\
    timer_cancel t = Some t'.
Proof.
  apply (stop_never_raises
           [CallStart 5; Tick 0 0 false; CallStop; CallStart 2] 1).
  reflexivity.
Defined.

(** X10: [stop] does not interrupt a fetch cycle in flight: it cancels a
    [Timer] that waits and leaves every thread that executes where it is,
    in whatever state the scheduler is. *)
Theorem stop_keeps_cycle_in_flight (s : Scheduler) :
  in_flight (stop s) = in_flight s.
Proof.
  unfold stop. destruct (__autofetch_timer s) as [o|]; [|reflexivity].
  destruct (nth_error (heap s) o) as [t|] eqn:Hn; [|reflexivity].
  destruct (timer_cancel t) as [t'|] eqn:Hc; [|reflexivity].
  unfold in_flight, count_pc. cbn [heap].
  pose proof (sum_assign (fun t => List.length (filter in_target (timers t)))
                         (heap s) o t t' Hn) as Hsum.
  cbv beta in Hsum.
  assert (List.length (filter in_target (timers t')) =
          List.length (filter in_target (timers t))); [|lia].
  unfold timer_cancel in Hc. destruct (thread t) as [i|]; [|discriminate].
  inversion Hc; subst. cbn [timers]. unfold cancel_thread.
  destruct (nth_error (timers t) i) as [q|] eqn:Hq; [|reflexivity].
  destruct q; try reflexivity.
  pose proof (count_assign in_target _ _ _ Cancelled Hq) as H. simpl in H. lia.
Qed.

(** X11: every call of the monitor's [start] adds a timer object with a
    [Timer] that waits, whatever the state of the scheduler, and leaves the
    monitor running. *)
Theorem start_always_schedules (interval : nat) (s : Scheduler) :
  List.length (heap (start interval s)) = List.length (heap s) + 1 /\
  pending (start interval s) = pending s + 1 /\
  live (start interval s) = live s + 1 /\
  running (start interval s) = true.
Proof.
  unfold start, pending, live, running, count_pc.
  cbn [heap __autofetch_timer]. rewrite length_app, !map_app, !list_sum_app.
  rewrite nth_error_app2, Nat.sub_diag by lia. simpl. repeat split; lia.
Qed.

(** X12: a fetch cycle that raises ends the chain of the timer that ran it:
    [_handle_target] does not reach [_start_timer], so after one [start],
    once a target has ended by an exception no [Timer] waits or executes,
    and none will unless [start] is called again. *)
Theorem crashed_cycle_ends_the_chain
        (interval : nat) (acts1 acts2 : list action)
        (t : AutoFetchTimer) (i : nat) :
  forallb (fun a => negb (is_start a)) acts1 = true ->
  forallb (fun a => negb (is_start a)) acts2 = true ->
  nth_error (heap (run acts1 (start interval idle))) 0 = Some t ->
  nth_error (timers t) i = Some Line173 ->
  let s := run acts2 (act (run acts1 (start interval idle)) (Tick 0 i true)) in
  live s = 0 /\ in_flight s = 0 /\ pending s = 0.
Proof.
  intros H1 H2 Ht Hi s.
  assert (Hl : live s = 0).
  { subst s. set (s1 := run acts1 (start interval idle)) in *.
    assert (Hl1 : live s1 <= 1).
    { pose proof (run_live acts1 (start interval idle) H1) as Hr.
      assert (live (start interval idle) = 1) by reflexivity.
      unfold s1. lia. }
    pose proof (run_live acts2 (act s1 (Tick 0 i true)) H2) as Hr.
    assert (live (act s1 (Tick 0 i true)) + 1 = live s1); [|lia].
    cbn [act]. rewrite Ht. unfold _handle_target_step. rewrite Hi.
    unfold live, count_pc. cbn [heap].
    pose proof (sum_assign alive_timers (heap s1) 0 t (goto t i Crashed) Ht)
      as Hsum.
    pose proof (count_assign alive (timers t) i Line173 Crashed Hi) as Hc.
    unfold alive_timers, goto in *. cbn [timers alive b2n] in *. lia. }
  pose proof (flight_pending_live s). lia.
Qed.

Lemma crashed_cycle_ends_the_chain_witness :
  live (run [Tick 0 0 false; CallStop]
            (act (run [Tick 0 0 false; Tick 0 0 false] (start 5 idle))
                 (Tick 0 0 true))) = 0.
Proof.
  refine (proj1 (crashed_cycle_ends_the_chain
                   5 [Tick 0 0 false; Tick 0 0 false] [Tick 0 0 false; CallStop]
                   (mkTimer true true 5 (Some 0) [Line173]) 0 _ _ _ _));
    reflexivity.
Defined.

(** ** After [stop] *)

Lemma chained_step (i : nat) (raises : bool) (t : AutoFetchTimer) :
  chained t -> chained (_handle_target_step i raises t).
Proof.
  intros (Hth & Hal & Hpt). unfold _handle_target_step.
  destruct (nth_error (timers t) i) as [q|] eqn:Hq; [|now repeat split].
  pose proof (pending_le_alive (timers t)) as Hle.
  unfold chained, alive_timers, pending_timers in *.
  destruct q; try (now repeat split).
  - pose proof (count_assign alive _ _ _ Line172 Hq) as Ha.
    pose proof (count_assign pending_pc _ _ _ Line172 Hq) as Hp.
    cbn [goto thread timers alive pending_pc b2n] in *.
    split; [exact Hth|]. split; [lia|]. intros H. lia.
  - pose proof (count_assign alive _ _ _ Line173 Hq) as Ha.
    pose proof (count_assign pending_pc _ _ _ Line173 Hq) as Hp.
    pose proof (executing_not_pending _ _ _ Hq eq_refl eq_refl) as Hx.
    cbn [goto thread timers alive pending_pc b2n] in *.
    split; [exact Hth|]. split; [lia|]. intros H. lia.
  - pose proof (count_assign alive _ _ _ (if raises then Crashed else Line174) Hq)
      as Ha.
    pose proof (count_assign pending_pc _ _ _
                             (if raises then Crashed else Line174) Hq) as Hp.
    pose proof (executing_not_pending _ _ _ Hq eq_refl eq_refl) as Hx.
    cbn [goto thread timers] in *.
    split; [exact Hth|]. destruct raises; cbn [alive pending_pc b2n] in *;
      (split; [lia|]; intros H; lia).
  - pose proof (count_assign alive _ _ _ Line175 Hq) as Ha.
    pose proof (count_assign pending_pc _ _ _ Line175 Hq) as Hp.
    pose proof (executing_not_pending _ _ _ Hq eq_refl eq_refl) as Hx.
    cbn [goto thread timers alive pending_pc b2n] in *.
    split; [exact Hth|]. split; [lia|]. intros H. lia.
  - pose proof (count_assign alive _ _ _ Done Hq) as Ha.
    pose proof (count_assign pending_pc _ _ _ Done Hq) as Hp.
    pose proof (executing_not_pending _ _ _ Hq eq_refl eq_refl) as Hx.
    unfold _start_timer, goto.
    cbn [_should_continue timers alive pending_pc b2n] in *.
    destruct (_should_continue t); cbn [thread timers] in *.
    + split; [discriminate|]. rewrite !filter_app, !length_app.
      cbn [filter alive pending_pc List.length].
      split; [lia|]. intros _.
      exists (List.length (assign (timers t) i Done)). split; [reflexivity|].
      rewrite nth_error_app2, Nat.sub_diag by lia. reflexivity.
    + split; [exact Hth|]. split; [lia|]. intros H. lia.
Qed.

Lemma cancel_clears_pending (t t' : AutoFetchTimer) :
  chained t -> timer_cancel t = Some t' -> chained t' /\ quiet t'.
Proof.
  intros (Hth & Hal & Hpt) Hc. unfold timer_cancel in Hc.
  destruct (thread t) as [i|] eqn:Hi; [|discriminate].
  inversion Hc; subst; clear Hc.
  pose proof (pending_le_alive (timers t)) as Hle.
  unfold chained, quiet, alive_timers, pending_timers, cancel_thread in *.
  cbn [thread timers _should_continue].
  assert (Hz : nth_error (timers t) i <> Some Waiting ->
               List.length (filter pending_pc (timers t)) = 0).
  { intros Hnw.
    destruct (Nat.eq_dec (List.length (filter pending_pc (timers t))) 1)
      as [H1|H1]; [|lia].
    destruct (Hpt H1) as [i0 [Ht0 Hw]]. inversion Ht0; subst. congruence. }
  destruct (nth_error (timers t) i) as [q|] eqn:Hq.
  - destruct q;
      try (specialize (Hz ltac:(discriminate));
           repeat split; try lia; try discriminate; intros; lia).
    pose proof (count_assign alive _ _ _ Cancelled Hq) as Ha.
    pose proof (count_assign pending_pc _ _ _ Cancelled Hq) as Hp.
    cbn [alive pending_pc b2n] in *.
    repeat split; try lia; try discriminate; intros; lia.
  - specialize (Hz ltac:(discriminate)).
    repeat split; try lia; try discriminate; intros; lia.
Qed.

Lemma quiet_step (i : nat) (raises : bool) (t : AutoFetchTimer) :
  quiet t -> quiet (_handle_target_step i raises t).
Proof.
  intros [Hsc Hp]. unfold _handle_target_step.
  destruct (nth_error (timers t) i) as [q|] eqn:Hq; [|now split].
  unfold quiet, pending_timers in *.
  destruct q; try (now split).
  - pose proof (count_nth pending_pc _ _ _ Hq eq_refl) as Hone. lia.
  - pose proof (count_assign pending_pc _ _ _ Line173 Hq) as H.
    cbn [goto _should_continue timers pending_pc b2n] in *. split; [exact Hsc|lia].
  - pose proof (count_assign pending_pc _ _ _
                             (if raises then Crashed else Line174) Hq) as H.
    cbn [goto _should_continue timers] in *.
    destruct raises; cbn [pending_pc b2n] in *; (split; [exact Hsc|lia]).
  - pose proof (count_assign pending_pc _ _ _ Line175 Hq) as H.
    cbn [goto _should_continue timers pending_pc b2n] in *. split; [exact Hsc|lia].
  - pose proof (count_assign pending_pc _ _ _ Done Hq) as H.
    unfold _start_timer, goto.
    cbn [_should_continue timers pending_pc b2n] in *.
    rewrite Hsc. cbn [_should_continue timers]. split; [reflexivity|lia].
Qed.

Lemma quiet_cancel (t t' : AutoFetchTimer) :
  quiet t -> timer_cancel t = Some t' -> quiet t'.
Proof.
  intros [Hsc Hp] Hc. unfold timer_cancel in Hc.
  destruct (thread t) as [i|]; [|discriminate]. inversion Hc; subst.
  unfold quiet, pending_timers, cancel_thread in *. cbn [_should_continue timers].
  split; [reflexivity|].
  destruct (nth_error (timers t) i) as [q|] eqn:Hq; [|exact Hp].
  destruct q; try exact Hp.
  pose proof (count_nth pending_pc _ _ _ Hq eq_refl) as Hone. lia.
Qed.

Section Sole.

Variable P : AutoFetchTimer -> Prop.
Hypothesis P_step : forall i raises t, P t -> P (_handle_target_step i raises t).
Hypothesis P_cancel : forall t t', P t -> timer_cancel t = Some t' -> P t'.

Lemma sole_act (s : Scheduler) (a : action) :
  is_start a = false -> sole P s -> sole P (act s a).
Proof.
  intros Ha (t & Hheap & Href & Ht).
  destruct a as [interval| |o i raises]; [discriminate| |]; cbn [act].
  - unfold stop. rewrite Href, Hheap. cbn [nth_error].
    destruct (timer_cancel t) as [t'|] eqn:Hc.
    + exists t'. cbn [heap __autofetch_timer assign]. eauto.
    + exists t. auto.
  - rewrite Hheap. destruct o as [|o]; cbn [nth_error].
    + exists (_handle_target_step i raises t).
      cbn [heap __autofetch_timer assign]. auto.
    + destruct o; cbn [nth_error]; exists t; auto.
Qed.

Lemma sole_run (acts : list action) : forall s,
  forallb (fun a => negb (is_start a)) acts = true ->
  sole P s -> sole P (run acts s).
Proof.
  induction acts as [|a acts IH]; intros s H Hs; simpl in *; [exact Hs|].
  apply andb_prop in H. destruct H as [Ha H]. apply negb_true_iff in Ha.
  apply IH; [exact H|]. now apply sole_act.
Qed.

End Sole.

(** X13: after one [start], a [stop] that comes while the [Timer] waits for
    its interval, that is between two cycles, ends the polling for good: the
    [Timer] is cancelled, and from then on no [Timer] waits or executes and
    the monitor is not running, whatever steps of the timer threads and
    further calls of [stop] follow. *)
Theorem stop_between_cycles_ends_the_chain
        (interval : nat) (acts1 acts2 : list action) :
  forallb (fun a => negb (is_start a)) acts1 = true ->
  forallb (fun a => negb (is_start a)) acts2 = true ->
  pending (run acts1 (start interval idle)) = 1 ->
  let s := run acts2 (stop (run acts1 (start interval idle))) in
  live s = 0 /\ running s = false.
Proof.
  intros H1 H2 Hpending s.
  assert (Hs1 : sole chained (run acts1 (start interval idle))).
  { apply sole_run; [exact chained_step| |exact H1|].
    - intros t t' Ht Hc. now destruct (cancel_clears_pending t t' Ht Hc).
    - eexists. split; [reflexivity|]. split; [reflexivity|].
      unfold timer_start, timer_init, _start_timer, chained,
        alive_timers, pending_timers. simpl.
      split; [discriminate|]. split; [lia|]. intros _. now exists 0. }
  destruct Hs1 as (t & Hheap & Href & Ht).
  assert (Hp1 : pending_timers t = 1).
  { unfold pending, count_pc in Hpending. rewrite Hheap in Hpending.
    unfold pending_timers. simpl in Hpending. lia. }
  destruct Ht as (Hth & Hal & Hpt).
  destruct (Hpt Hp1) as [i [Hi Hw]].
  set (t' := mkTimer false (is_running t) (seconds t) (thread t)
                     (assign (timers t) i Cancelled)).
  assert (Hc : timer_cancel t = Some t').
  { unfold timer_cancel, cancel_thread, t'. rewrite Hi, Hw. reflexivity. }
  assert (Hstop : stop (run acts1 (start interval idle)) =
                  mkScheduler (Some 0) [t']).
  { unfold stop. rewrite Href, Hheap. cbn [nth_error]. rewrite Hc.
    reflexivity. }
  assert (Hch : chained t) by (repeat split; assumption).
  destruct (cancel_clears_pending t t' Hch Hc) as [_ Hq].
  assert (Hlive : live (stop (run acts1 (start interval idle))) = 0).
  { rewrite Hstop. unfold live, count_pc. cbn [heap map list_sum timers t'].
    pose proof (count_assign alive _ _ _ Cancelled Hw) as Ha.
    unfold alive_timers in Hal. cbn [alive b2n] in Ha. simpl. lia. }
  split.
  - subst s.
    pose proof (run_live acts2 (stop (run acts1 (start interval idle))) H2).
    lia.
  - assert (Hs : sole quiet s).
    { subst s.
      apply sole_run; [exact quiet_step|exact quiet_cancel|exact H2|].
      rewrite Hstop. exists t'. auto. }
    destruct Hs as (t2 & Hheap2 & Href2 & Hsc & _).
    unfold running. rewrite Href2, Hheap2. exact Hsc.
Qed.

Lemma stop_between_cycles_ends_the_chain_witness :
  live (run [Tick 0 0 false; Tick 0 1 false; CallStop]
            (stop (run [Tick 0 0 false; Tick 0 0 false; Tick 0 0 false;
                        Tick 0 0 false; Tick 0 0 false]
                       (start 5 idle)))) = 0.
Proof.
  refine (proj1 (stop_between_cycles_ends_the_chain
                   5
                   [Tick 0 0 false; Tick 0 0 false; Tick 0 0 false;
                    Tick 0 0 false; Tick 0 0 false]
                   [Tick 0 0 false; Tick 0 1 false; CallStop] _ _ _));
    reflexivity.
Defined.

Lemma nth_error_assign_other {A} (l : list A) : forall i k x,
  i <> k -> nth_error (assign l i x) k = nth_error l k.
Proof.
  induction l as [|y l IH]; intros [|i] [|k] x H; simpl; auto;
    try congruence.
Qed.

(** X14: [stop] reaches only the timer object the monitor holds: every other
    timer object, such as one that a second [start] has replaced, is left as
    it is, with its [Timer]s and its [_should_continue]. *)
Theorem stop_reaches_only_the_held_timer (s : Scheduler) (o : nat) :
  __autofetch_timer s <> Some o ->
  nth_error (heap (stop s)) o = nth_error (heap s) o.
Proof.
  intros Ho. unfold stop.
  destruct (__autofetch_timer s) as [o'|]; [|reflexivity].
  destruct (nth_error (heap s) o') as [t|]; [|reflexivity].
  destruct (timer_cancel t) as [t'|]; [|reflexivity].
  cbn [heap]. apply nth_error_assign_other. congruence.
Qed.

Lemma stop_reaches_only_the_held_timer_witness :
  nth_error (heap (stop (start 2 (start 5 idle)))) 0 =
  nth_error (heap (start 2 (start 5 idle))) 0.
Proof.
  apply (stop_reaches_only_the_held_timer (start 2 (start 5 idle)) 0).
  discriminate.
Defined.
